(** * Stock watchlist dashboards: indicator and summary pipeline

    A shallow embedding of the two dashboard scripts
    ([stock_watchlist_app.py], the CSV variant, and [stock_watchlist (2).py],
    the spreadsheet variant) and of the dataframe operations they call.

    Numbers.  The scripts compute on IEEE doubles.  Here a number is an exact
    rational, extended with the two infinities and the "not a number" marker
    that the dataframe library uses for a missing value; rounding and the
    sign of zero are not modelled.  Equality of values is therefore [feq]:
    the same special value, or equal rationals.  Where rounding decides a
    statement (one cell of the return matrix), module [Double] computes the
    same operations on binary64 numbers. *)

From Stdlib Require Import List Bool Arith ZArith QArith Qminmax Lia Lqa String Ascii Sorted.
From Stdlib Require Floats.
Import ListNotations.

(* ================================================================== *)
(** ** Extended rationals *)

Module Float.

Inductive float : Type :=
| Fin (q : Q)
| PInf
| NInf
| NaN.

Definition isnan (x : float) : bool :=
  match x with NaN => true | _ => false end.

Definition notna (x : float) : bool := negb (isnan x).

(** The infinity that a non-zero sign selects; a zero sign gives [NaN]
    (as in [0 * inf] and [0 / 0]). *)
Definition inf_of_sign (c : comparison) : float :=
  match c with Gt => PInf | Lt => NInf | Eq => NaN end.

Definition neg (x : float) : float :=
  match x with
  | Fin q => Fin (- q)
  | PInf => NInf
  | NInf => PInf
  | NaN => NaN
  end.

Definition add (x y : float) : float :=
  match x, y with
  | NaN, _ | _, NaN => NaN
  | Fin a, Fin b => Fin (a + b)
  | PInf, NInf | NInf, PInf => NaN
  | PInf, _ | _, PInf => PInf
  | NInf, _ | _, NInf => NInf
  end.

Definition sub (x y : float) : float := add x (neg y).

Definition mul (x y : float) : float :=
  match x, y with
  | NaN, _ | _, NaN => NaN
  | Fin a, Fin b => Fin (a * b)
  | Fin a, PInf | PInf, Fin a => inf_of_sign (a ?= 0)
  | Fin a, NInf | NInf, Fin a => inf_of_sign (CompOpp (a ?= 0))
  | PInf, PInf | NInf, NInf => PInf
  | PInf, NInf | NInf, PInf => NInf
  end.

Definition div (x y : float) : float :=
  match x, y with
  | NaN, _ | _, NaN => NaN
  | Fin a, Fin b =>
      if Qeq_bool b 0 then inf_of_sign (a ?= 0) else Fin (a / b)
  | Fin _, PInf | Fin _, NInf => Fin 0
  | PInf, Fin b => match b ?= 0 with Lt => NInf | _ => PInf end
  | NInf, Fin b => match b ?= 0 with Lt => PInf | _ => NInf end
  | _, _ => NaN
  end.

(** Comparisons: every comparison with [NaN] is false. *)
Definition ltb (x y : float) : bool :=
  match x, y with
  | NaN, _ | _, NaN => false
  | Fin a, Fin b => match a ?= b with Lt => true | _ => false end
  | _, NInf => false
  | NInf, _ => true
  | PInf, _ => false
  | Fin _, PInf => true
  end.

Definition gtb (x y : float) : bool := ltb y x.

Definition eqb (x y : float) : bool :=
  match x, y with
  | Fin a, Fin b => Qeq_bool a b
  | PInf, PInf | NInf, NInf => true
  | _, _ => false
  end.

(** Same value: the same marker, or equal rationals. *)
Definition feq (x y : float) : Prop :=
  match x, y with
  | Fin a, Fin b => a == b
  | PInf, PInf | NInf, NInf | NaN, NaN => True
  | _, _ => False
  end.

End Float.

Import Float.

(* ================================================================== *)
(** ** Dataframe-library operations on a column

    A column ([Series]) is the list of its values in index order. *)

Module Pandas.

Definition Series := list float.

Fixpoint zip_with {A B C : Type} (f : A -> B -> C) (xs : list A) (ys : list B)
  : list C :=
  match xs, ys with
  | x :: xs', y :: ys' => f x y :: zip_with f xs' ys'
  | _, _ => []
  end.

(** [s.shift(1)]: every value moves one position down, the first position
    becomes missing and the last value falls off. *)
Definition shift (xs : Series) : Series :=
  match xs with
  | [] => []
  | _ :: _ => NaN :: removelast xs
  end.

(** [s.diff()] is [s - s.shift(1)]. *)
Definition diff (xs : Series) : Series := zip_with sub xs (shift xs).

(** [s.where(cond, other)]: keep the value where [cond] holds, otherwise
    [other]. *)
Definition where_ (cond : list bool) (other : float) (xs : Series) : Series :=
  zip_with (fun (c : bool) x => if c then x else other) cond xs.

Definition gt_scalar (xs : Series) (c : float) : list bool :=
  map (fun x => gtb x c) xs.

Definition lt_scalar (xs : Series) (c : float) : list bool :=
  map (fun x => ltb x c) xs.

Definition neg_series (xs : Series) : Series := map neg xs.

(** *** [rolling(window).mean()]

    The library slides a running count and a running sum over the column:
    at position [i] the value leaving the window (position [i - window]) is
    removed, the value at [i] is added, and the mean is reported once the
    count reaches [min_periods] (which defaults to [window]).  Missing and
    infinite values are not observations.  Only [window >= 1] is used. *)

Record mean_state : Type := MeanState { nobs : nat; sum_x : Q }.

Definition add_mean (v : float) (st : mean_state) : mean_state :=
  match v with
  | Fin q => MeanState (S (nobs st)) (sum_x st + q)
  | _ => st
  end.

Definition remove_mean (v : float) (st : mean_state) : mean_state :=
  match v with
  | Fin q => MeanState (pred (nobs st)) (sum_x st - q)
  | _ => st
  end.

Definition calc_mean (minp : nat) (st : mean_state) : float :=
  if (minp <=? nobs st)%nat && (0 <? nobs st)%nat
  then Fin (sum_x st / inject_Z (Z.of_nat (nobs st)))
  else NaN.

Fixpoint roll_mean_from (win minp : nat) (values : Series) (i : nat)
  (rest : Series) (st : mean_state) : Series :=
  match rest with
  | [] => []
  | v :: rest' =>
      let st1 := if (win <=? i)%nat
                 then remove_mean (nth (i - win) values NaN) st
                 else st in
      let st2 := add_mean v st1 in
      calc_mean minp st2 :: roll_mean_from win minp values (S i) rest' st2
  end.

Definition rolling_mean (window : nat) (xs : Series) : Series :=
  roll_mean_from window window xs 0 xs (MeanState 0 0).

(** *** [ewm(span, adjust).mean()]

    The library's exponentially weighted mean, for equally spaced
    observations: [com = (span - 1) / 2], [alpha = 1 / (1 + com)]; the
    running value [weighted] starts at the first value, and each observation
    replaces it by the normalised combination of the old value (weight
    [old_wt], decayed by [1 - alpha]) and the new one (weight [alpha], or 1
    when [adjust]).  A missing value decays the old weight without updating
    (unless [ignore_na]).  [min_periods] is 0, which the library raises
    to 1. *)

Record ewm_state : Type :=
  EwmState { weighted : float; old_wt : Q; ewm_nobs : nat }.

Definition get_center_of_mass (span : Q) : Q := (span - 1) / 2.

Definition ewm_step (alpha : Q) (adjust ignore_na : bool) (cur : float)
  (st : ewm_state) : ewm_state :=
  let is_observation := notna cur in
  let n := if is_observation then S (ewm_nobs st) else ewm_nobs st in
  let new_wt := if adjust then 1 else alpha in
  if notna (weighted st) then
    if is_observation || negb ignore_na then
      let ow := old_wt st * (1 - alpha) in
      if is_observation then
        let w := if eqb (weighted st) cur then weighted st
                 else div (add (mul (Fin ow) (weighted st))
                               (mul (Fin new_wt) cur))
                          (Fin (ow + new_wt)) in
        EwmState w (if adjust then ow + new_wt else 1) n
      else EwmState (weighted st) ow n
    else EwmState (weighted st) (old_wt st) n
  else if is_observation then EwmState cur (old_wt st) n
  else EwmState (weighted st) (old_wt st) n.

Definition ewm_output (minp : nat) (st : ewm_state) : float :=
  if (minp <=? ewm_nobs st)%nat then weighted st else NaN.

Fixpoint ewm_loop (alpha : Q) (adjust ignore_na : bool) (minp : nat)
  (rest : Series) (st : ewm_state) : Series :=
  match rest with
  | [] => []
  | cur :: rest' =>
      let st' := ewm_step alpha adjust ignore_na cur st in
      ewm_output minp st' :: ewm_loop alpha adjust ignore_na minp rest' st'
  end.

Definition ewm (com : Q) (adjust ignore_na : bool) (minp : nat)
  (vals : Series) : Series :=
  let alpha := 1 / (1 + com) in
  match vals with
  | [] => []
  | v0 :: rest =>
      let st := EwmState v0 1 (if notna v0 then 1 else 0) in
      ewm_output minp st :: ewm_loop alpha adjust ignore_na minp rest st
  end.

Definition ewm_mean (span : Q) (adjust : bool) (xs : Series) : Series :=
  ewm (get_center_of_mass span) adjust false 1 xs.

End Pandas.

Import Pandas.

(* ================================================================== *)
(** ** Tables

    A price history is a date-indexed column of closing prices, dates
    (day numbers) ascending.  A frame is a list of rows, each a date and one
    value per column. *)

Module Frame.

Definition PriceSeries := list (Z * Q).

Definition closes (h : PriceSeries) : Series := map (fun p => Fin (snd p)) h.

Definition dates (h : PriceSeries) : list Z := map fst h.

Record DataFrame : Type :=
  MkFrame { columns : list string; rows : list (Z * list float) }.

(** A dictionary with insertion order: assigning to a key that is present
    replaces its value in place. *)
Fixpoint dict_set {V : Type} (d : list (string * V)) (k : string) (v : V)
  : list (string * V) :=
  match d with
  | [] => [(k, v)]
  | (k', v') :: d' =>
      if String.eqb k k' then (k, v) :: d' else (k', v') :: dict_set d' k v
  end.

(** The union of the date indexes, ascending and without repetition. *)
Fixpoint insert_date (d : Z) (l : list Z) : list Z :=
  match l with
  | [] => [d]
  | x :: l' =>
      match (d ?= x)%Z with
      | Lt => d :: l
      | Eq => l
      | Gt => x :: insert_date d l'
      end
  end.

Definition union_index (cols : list (string * PriceSeries)) : list Z :=
  fold_left (fun acc col => fold_left (fun a d => insert_date d a) (dates (snd col)) acc)
            cols [].

Definition value_at (d : Z) (h : PriceSeries) : float :=
  match find (fun p => Z.eqb (fst p) d) h with
  | Some p => Fin (snd p)
  | None => NaN
  end.

(** [pd.DataFrame(hist_data)]: one column per key, in key order, over the
    union of the indexes; a date a column does not have is missing there. *)
Definition row_at (cols : list (string * PriceSeries)) (d : Z) : Z * list float :=
  (d, map (fun col => value_at d (snd col)) cols).

Definition of_dict (cols : list (string * PriceSeries)) : DataFrame :=
  MkFrame (map fst cols) (map (row_at cols) (union_index cols)).

(** [df.pct_change()]: [df / df.shift(1) - 1], with no filling of missing
    values (the library's behaviour since it dropped the padding default of
    its earlier versions).  The first row has no predecessor. *)
Definition pct (cur prev : float) : float := sub (div cur prev) (Fin 1).

Fixpoint pct_change_from (prev : list float) (rs : list (Z * list float))
  : list (Z * list float) :=
  match rs with
  | [] => []
  | r :: rs' => (fst r, zip_with pct (snd r) prev) :: pct_change_from (snd r) rs'
  end.

Definition pct_change (df : DataFrame) : DataFrame :=
  MkFrame (columns df)
          match rows df with
          | [] => []
          | r :: rs => (fst r, map (fun _ => NaN) (snd r)) :: pct_change_from (snd r) rs
          end.

(** [df.dropna()]: keep the rows without a missing value. *)
Definition dropna (df : DataFrame) : DataFrame :=
  MkFrame (columns df) (filter (fun r => forallb notna (snd r)) (rows df)).

Definition mul_scalar (df : DataFrame) (c : float) : DataFrame :=
  MkFrame (columns df) (map (fun r => (fst r, map (fun x => mul x c) (snd r))) (rows df)).

(** Cells of the metrics table: a number, a text, or the missing marker. *)
Inductive value : Type :=
| VNum (q : Q)
| VStr (s : string)
| VNA.

Definition replace_str (old : string) (new : value) (col : list value) : list value :=
  map (fun v => match v with
                | VStr s => if String.eqb s old then new else v
                | _ => v
                end) col.

Definition dropna_col (col : list value) : list value :=
  filter (fun v => match v with VNA => false | _ => true end) col.

(** [astype(float)] raises on a text cell ([None] here). *)
Fixpoint astype_float (col : list value) : option (list Q) :=
  match col with
  | [] => Some []
  | VNum q :: col' => option_map (cons q) (astype_float col')
  | _ :: _ => None
  end.

Definition sumQ (l : list Q) : Q := fold_right Qplus 0 l.

(** [mean()] of an empty column is the missing marker. *)
Definition mean (l : list Q) : float :=
  match l with
  | [] => NaN
  | _ :: _ => Fin (sumQ l / inject_Z (Z.of_nat (List.length l)))
  end.

End Frame.

Import Frame.

(* ================================================================== *)
(** ** A cell of the return matrix in double precision

    [df.pct_change()] divides by the previous row and subtracts 1, and the
    script multiplies by 100; [claimed] is the expression
    [(close[i] - close[i-1]) / close[i-1] * 100]. *)

Module Double.

Import PrimFloat.
Local Open Scope float_scope.

Definition pct (cur prev : PrimFloat.float) : PrimFloat.float := cur / prev - 1.

Definition cell (cur prev : PrimFloat.float) : PrimFloat.float := pct cur prev * 100.

Definition claimed (cur prev : PrimFloat.float) : PrimFloat.float :=
  (cur - prev) / prev * 100.

End Double.

(* ================================================================== *)
(** ** Text operations of the input line *)

Module Py.

Definition is_space (c : ascii) : bool :=
  let n := nat_of_ascii c in
  ((9 <=? n) && (n <=? 13) || (28 <=? n) && (n <=? 32))%nat.

Definition is_lower (c : ascii) : bool :=
  let n := nat_of_ascii c in ((97 <=? n) && (n <=? 122))%nat.

Definition upper_char (c : ascii) : ascii :=
  if is_lower c then ascii_of_nat (nat_of_ascii c - 32) else c.

(** [s.upper()], on ASCII text. *)
Fixpoint upper (s : string) : string :=
  match s with
  | EmptyString => EmptyString
  | String c s' => String (upper_char c) (upper s')
  end.

Fixpoint lstrip (s : string) : string :=
  match s with
  | EmptyString => EmptyString
  | String c s' => if is_space c then lstrip s' else s
  end.

Fixpoint rstrip (s : string) : string :=
  match s with
  | EmptyString => EmptyString
  | String c s' =>
      match rstrip s' with
      | EmptyString => if is_space c then EmptyString else String c EmptyString
      | r => String c r
      end
  end.

(** [s.strip()]: without leading and trailing white space. *)
Definition strip (s : string) : string := rstrip (lstrip s).

(** [s.split(sep)] for a one-character separator: the pieces between the
    separators, empty pieces included. *)
Fixpoint split (sep : ascii) (s : string) : list string :=
  match s with
  | EmptyString => [EmptyString]
  | String c s' =>
      if Ascii.eqb c sep then EmptyString :: split sep s'
      else match split sep s' with
           | [] => [String c EmptyString]
           | p :: ps => String c p :: ps
           end
  end.

(** Truth value of a text: non-empty. *)
Definition truthy (s : string) : bool :=
  match s with EmptyString => false | _ => true end.

End Py.

(** [tickers = [t.strip().upper() for t in tickers_input.split(",") if t.strip()]] *)
Definition tickers (tickers_input : string) : list string :=
  map (fun t => Py.upper (Py.strip t))
      (filter (fun t => Py.truthy (Py.strip t)) (Py.split ","%char tickers_input)).

(* ================================================================== *)
(** ** The dashboards *)

Module App.

Local Open Scope string_scope.
Local Open Scope list_scope.

(** The two scripts: [Xlsx] is [stock_watchlist (2).py] (spreadsheet export,
    "N/A" text for a missing field, all indicators), [Csv] is
    [stock_watchlist_app.py] (CSV export, the library's missing marker, moving
    averages only). *)
Inductive variant : Type := Xlsx | Csv.

Inductive result (A : Type) : Type :=
| Ok (a : A)
| Raise (msg : string).
Arguments Ok {A} a.
Arguments Raise {A} msg.

(** The provider's snapshot: a field is a value or absent. *)
Record InfoRecord : Type := MkInfo {
  shortName : option string;
  currentPrice : option Q;
  marketCap : option Q;
  fiftyTwoWeekHigh : option Q;
  fiftyTwoWeekLow : option Q;
  trailingPE : option Q
}.

(** The market-data provider: [yf.Ticker(t).info] and
    [yf.download(t, period="6mo", interval="1d")], each returning or
    raising.  The price history is given by its [Close] column.  A download
    is a function of the symbol, so the CSV script's cache is not
    observable. *)
Record provider : Type := MkProvider {
  info_of : string -> result InfoRecord;
  download : string -> result PriceSeries
}.

Record MetricsRow : Type := MkRow {
  Ticker : string;
  Name : value;
  Price : value;
  MarketCap : value;
  High52 : value;
  Low52 : value;
  PERatio : value
}.

Definition missing (v : variant) : value :=
  match v with Xlsx => VStr "N/A" | Csv => VNA end.

(** [info.get(key, default)] *)
Definition get_num (v : variant) (field : option Q) : value :=
  match field with Some q => VNum q | None => missing v end.

Definition get_str (v : variant) (field : option string) : value :=
  match field with Some s => VStr s | None => missing v end.

Definition make_row (v : variant) (ticker : string) (info : InfoRecord) : MetricsRow :=
  MkRow ticker
        (get_str v (shortName info))
        (get_num v (currentPrice info))
        (get_num v (marketCap info))
        (get_num v (fiftyTwoWeekHigh info))
        (get_num v (fiftyTwoWeekLow info))
        (get_num v (trailingPE info)).

(** The derived series of one price history. *)
Definition SMA (n : nat) (close : Series) : Series := rolling_mean n close.

Definition delta (close : Series) : Series := diff close.

(** [delta.where(delta > 0, 0)] and [-delta.where(delta < 0, 0)] *)
Definition gain_raw (close : Series) : Series :=
  where_ (gt_scalar (delta close) (Fin 0)) (Fin 0) (delta close).

Definition loss_raw (close : Series) : Series :=
  neg_series (where_ (lt_scalar (delta close) (Fin 0)) (Fin 0) (delta close)).

Definition gain (close : Series) : Series := rolling_mean 14 (gain_raw close).

Definition loss (close : Series) : Series := rolling_mean 14 (loss_raw close).

Definition rs (close : Series) : Series := zip_with div (gain close) (loss close).

(** [100 - (100 / (1 + rs))] *)
Definition rsi_of_rs (r : float) : float :=
  sub (Fin 100) (div (Fin 100) (add (Fin 1) r)).

Definition RSI (close : Series) : Series := map rsi_of_rs (rs close).

Definition exp1 (close : Series) : Series := ewm_mean 12 false close.

Definition exp2 (close : Series) : Series := ewm_mean 26 false close.

Definition MACD (close : Series) : Series := zip_with sub (exp1 close) (exp2 close).

Definition Signal (close : Series) : Series := ewm_mean 9 false (MACD close).

(** What one chart plots, by legend label. *)
Definition chart_lines (v : variant) (h : PriceSeries) : list (string * Series) :=
  let close := closes h in
  match v with
  | Csv =>
      [("Close Price", close); ("SMA 20", SMA 20 close); ("SMA 50", SMA 50 close)]
  | Xlsx =>
      [("Close", close); ("SMA20", SMA 20 close); ("SMA50", SMA 50 close);
       ("RSI", RSI close);
       ("MACD", MACD close); ("Signal", Signal close);
       ("Histogram", zip_with sub (MACD close) (Signal close))]
  end.

(** [returns = hist_df.pct_change().dropna() * 100] *)
Definition returns (hist_data : list (string * PriceSeries)) : DataFrame :=
  mul_scalar (dropna (pct_change (of_dict hist_data))) (Fin 100).

(** The summary averages:
    [df[col].replace("N/A", pd.NA).dropna().astype(float).mean()] in the
    spreadsheet script, without the [replace] in the CSV script.  [None] is
    a conversion error. *)
Definition average (v : variant) (col : list value) : option float :=
  let col1 := match v with Xlsx => replace_str "N/A" VNA col | Csv => col end in
  option_map mean (astype_float (dropna_col col1)).

(** [f"{avg:.2f}" if pd.notna(avg) else "N/A"]: the number to be formatted,
    or [None] for the text "N/A". *)
Definition metric_value (avg : float) : option float :=
  if notna avg then Some avg else None.

(** What the page shows, in order. *)
Inductive event : Type :=
| StError (ticker msg : string)
| StSubheader (title : string)
| StDataframe (df : list MetricsRow)
| StMetric (label : string) (shown : option float)
| StDownloadButton (df : list MetricsRow)
| StHeatmap (returns : DataFrame)
| StChart (ticker : string) (lines : list (string * Series))
| StWarning (ticker msg : string)
| StException.

Record fetched : Type := MkFetched {
  data : list MetricsRow;
  hist_data : list (string * PriceSeries);
  errors : list event
}.

(** One turn of the fetch loop: the row is appended as soon as the snapshot
    is read; a raise anywhere in the [try] block is reported and the loop
    goes on. *)
Definition fetch_one (v : variant) (p : provider) (st : fetched) (ticker : string)
  : fetched :=
  match info_of p ticker with
  | Raise e => MkFetched (data st) (hist_data st) (errors st ++ [StError ticker e])
  | Ok info =>
      let data' := data st ++ [make_row v ticker info] in
      match download p ticker with
      | Raise e => MkFetched data' (hist_data st) (errors st ++ [StError ticker e])
      | Ok h => MkFetched data' (dict_set (hist_data st) ticker h) (errors st)
      end
  end.

Definition fetch_all (v : variant) (p : provider) (tickers : list string) : fetched :=
  fold_left (fetch_one v p) tickers (MkFetched [] [] []).

Definition summary (v : variant) (df : list MetricsRow) : option (list event) :=
  match average v (map PERatio df), average v (map Price df),
        average v (map MarketCap df) with
  | Some avg_pe, Some avg_price, Some avg_mcap =>
      Some [StMetric "Avg Price" (metric_value avg_price);
            StMetric "Avg Market Cap" (metric_value avg_mcap);
            StMetric "Avg P/E Ratio" (metric_value avg_pe)]
  | _, _, _ => None
  end.

(** [sns.heatmap(returns.T, ...)] raises on a return matrix without rows (it
    takes the minimum of an empty array).  The call stands outside every
    [try], under [if hist_data:], so the script stops there. *)
Definition heatmap_raises (hist : list (string * PriceSeries)) : bool :=
  match hist with
  | [] => false
  | _ :: _ => match rows (returns hist) with [] => true | _ :: _ => false end
  end.

Definition heatmap (hist : list (string * PriceSeries)) : list event :=
  match hist with
  | [] => []
  | _ :: _ =>
      [StSubheader "Performance Heatmap (6M Daily Returns)";
       if heatmap_raises hist then StException else StHeatmap (returns hist)]
  end.

(** The chart loop runs over every requested symbol and downloads again. *)
Definition chart_one (v : variant) (p : provider) (ticker : string) : event :=
  match download p ticker with
  | Ok h => StChart ticker (chart_lines v h)
  | Raise e => StWarning ticker e
  end.

Definition charts (v : variant) (p : provider) (tickers : list string) : list event :=
  StSubheader "Price History with Indicators" :: map (chart_one v p) tickers.

(** The script after "Generate Watchlist" is pressed.  An exception outside
    a [try] ([StException]) ends it: nothing after it is shown. *)
Definition output_stage (v : variant) (p : provider) (tickers : list string)
  (f : fetched) : list event :=
  match data f with
  | [] => []
  | _ :: _ =>
      let df := data f in
      [StSubheader "Stock Metrics"; StDataframe df;
       StSubheader "Market Sentiment Summary"] ++
      match summary v df with
      | None => [StException]
      | Some metrics =>
          metrics ++ [StDownloadButton df] ++ heatmap (hist_data f) ++
          (if heatmap_raises (hist_data f) then [] else charts v p tickers)
      end
  end.

Definition generate (v : variant) (p : provider) (tickers : list string) : list event :=
  let f := fetch_all v p tickers in
  errors f ++ output_stage v p tickers f.

Definition run (v : variant) (p : provider) (tickers_input : string) : list event :=
  generate v p (tickers tickers_input).

End App.

Import App.

(* ================================================================== *)
(** ** Vocabulary of the statements *)

(** The [n] values of [cs] that end at position [i]. *)
Definition window (n i : nat) (cs : list Q) : list Q :=
  firstn n (skipn (S i - n) cs).

Definition arith_mean (l : list Q) : Q :=
  sumQ l / inject_Z (Z.of_nat (List.length l)).

Definition close_prices (h : PriceSeries) : list Q := map snd h.

Definition available (x : float) : bool := notna x.

(** Day-over-day change of a list of closes, its gain and its loss; position
    0 has no previous close, and both scripts' [where] puts 0 there. *)
Definition day_delta (cs : list Q) (j : nat) : Q := nth j cs 0 - nth (j - 1) cs 0.

Definition day_gain (cs : list Q) (j : nat) : Q :=
  if (j =? 0)%nat then 0 else Qmax (day_delta cs j) 0.

Definition day_loss (cs : list Q) (j : nat) : Q :=
  if (j =? 0)%nat then 0 else Qmax (- day_delta cs j) 0.

(** [ema] follows the exponential recurrence over [xs] with factor [k]:
    it starts at the first value, and each later value is
    [x * k + previous * (1 - k)]. *)
Definition ema_recurrence (k : Q) (xs ema : list Q) : Prop :=
  List.length ema = List.length xs /\
  (xs <> [] -> nth 0 ema 0 == nth 0 xs 0) /\
  (forall i, (0 < i)%nat -> (i < List.length xs)%nat ->
     nth i ema 0 == nth i xs 0 * k + nth (i - 1) ema 0 * (1 - k)).

(** A price history lists its dates in strictly ascending order. *)
Definition ascending (h : PriceSeries) : Prop := StronglySorted Z.lt (dates h).

(** [a] stands immediately before [b] in [l]. *)
Definition adjacent {A : Type} (l : list A) (a b : A) : Prop :=
  exists l1 l2, l = l1 ++ a :: b :: l2.

(** The daily return in per cent, as the specification writes it. *)
Definition pct_return (c c' : Q) : float :=
  mul (div (sub (Fin c) (Fin c')) (Fin c')) (Fin 100).

(** The rows and the error reports the fetch loop produces for a list of
    symbols, symbol by symbol. *)
Definition rows_for (v : variant) (p : provider) (ts : list string) : list MetricsRow :=
  flat_map (fun t => match info_of p t with
                     | Ok info => [make_row v t info]
                     | Raise _ => []
                     end) ts.

Definition errors_for (p : provider) (ts : list string) : list event :=
  flat_map (fun t => match info_of p t with
                     | Raise e => [StError t e]
                     | Ok _ => match download p t with
                               | Raise e => [StError t e]
                               | Ok _ => []
                               end
                     end) ts.


Definition rows_of (t : string) (df : list MetricsRow) : list MetricsRow :=
  filter (fun r => String.eqb (Ticker r) t) df.

(** The events of the chart loop: a chart or a warning. *)
Definition chart_event (ev : event) : bool :=
  match ev with StChart _ _ | StWarning _ _ => true | _ => false end.

Definition is_error (ev : event) : bool :=
  match ev with StError _ _ => true | _ => false end.

(** The values of a field that the provider gave. *)
Definition present (fields : list (option Q)) : list Q :=
  flat_map (fun o => match o with Some q => [q] | None => [] end) fields.

(** The metrics table of a list of fetched snapshots, and the values a field
    has in them. *)
Definition table_of (v : variant) (entries : list (string * InfoRecord))
  : list MetricsRow :=
  map (fun e => make_row v (fst e) (snd e)) entries.

Definition field_values (f : InfoRecord -> option Q)
  (entries : list (string * InfoRecord)) : list Q :=
  present (map (fun e => f (snd e)) entries).

Definition entries_for (p : provider) (ts : list string) : list (string * InfoRecord) :=
  flat_map (fun t => match info_of p t with
                     | Ok info => [(t, info)]
                     | Raise _ => []
                     end) ts.

(** The message of the error a failed snapshot fetch reports. *)
Definition info_error (p : provider) (t : string) : event :=
  StError t match info_of p t with Raise e => e | Ok _ => EmptyString end.

(** Sample data: a history of 15 rising closes, and a provider that knows
    every symbol but "B". *)
Definition rising_history : PriceSeries :=
  map (fun n => (Z.of_nat n, inject_Z (Z.of_nat (9 + n)))) (seq 1 15).

Definition sample_info : InfoRecord :=
  MkInfo (Some "Sample Inc."%string) (Some 10) (Some 1000) (Some 12) (Some 8) None.

Definition sample_provider : provider :=
  MkProvider
    (fun t => if String.eqb t "B" then Raise "no data"%string else Ok sample_info)
    (fun _ => Ok rising_history).

Definition failing_provider : provider :=
  MkProvider (fun _ => Raise "no data"%string) (fun _ => Ok rising_history).

(** No leading or trailing white space. *)
Definition trimmed (s : string) : Prop := Py.lstrip s = s /\ Py.rstrip s = s.

Definition sample_hist_data : list (string * PriceSeries) :=
  [("A"%string, [(1%Z, 10); (2%Z, 11); (3%Z, 12); (5%Z, 14)]);
   ("B"%string, [(1%Z, 5); (3%Z, 6); (5%Z, 7); (6%Z, 8)])].

(** The values in the window just before position [i], and what the rolling
    mean must be at position [i]. *)
Definition before (win : nat) (qs : list Q) (i : nat) : list Q :=
  firstn (Nat.min i win) (skipn (i - win) qs).

Definition mean_at (win : nat) (qs : list Q) (i : nat) (x : float) : Prop :=
  if (S i <? win)%nat then x = NaN
  else exists v, x = Fin v /\ v == arith_mean (window win i qs).

(** The columns of the RSI computation on closes [cs], as rationals. *)
Fixpoint deltas_from (prev : Q) (cs : list Q) : list Q :=
  match cs with
  | [] => []
  | c :: cs' => (c - prev) :: deltas_from c cs'
  end.

Definition pos_part (d : Q) : Q := match 0 ?= d with Lt => d | _ => 0 end.

Definition neg_part (d : Q) : Q := - match d ?= 0 with Lt => d | _ => 0 end.

Definition gainsQ (cs : list Q) : list Q :=
  match cs with
  | [] => []
  | c0 :: cs' => 0 :: map pos_part (deltas_from c0 cs')
  end.

Definition lossesQ (cs : list Q) : list Q :=
  match cs with
  | [] => []
  | c0 :: cs' => - 0 :: map neg_part (deltas_from c0 cs')
  end.

(** [es] follows the recurrence over [cs] from the previous value [prev]. *)
Fixpoint ema_follows (k prev : Q) (cs es : list Q) : Prop :=
  match cs, es with
  | [], [] => True
  | c :: cs', e :: es' => e == c * k + prev * (1 - k) /\ ema_follows k e cs' es'
  | _, _ => False
  end.

(** Outcome of the two provider calls for a symbol. *)
Definition info_ok (p : provider) (t : string) : bool :=
  match info_of p t with Ok _ => true | Raise _ => false end.

Definition download_ok (p : provider) (t : string) : bool :=
  match download p t with Ok _ => true | Raise _ => false end.

Definition fully_ok (p : provider) (t : string) : bool :=
  info_ok p t && download_ok p t.

(** The error the fetch loop reports for a symbol that is not fully fetched:
    the snapshot's exception, or else the download's. *)
Definition fetch_error (p : provider) (t : string) : event :=
  match info_of p t with
  | Raise e => StError t e
  | Ok _ => match download p t with
            | Raise e => StError t e
            | Ok _ => StError t EmptyString
            end
  end.

(** First occurrences of a list, those in [seen] left out. *)
Fixpoint dedup_seen (seen l : list string) : list string :=
  match l with
  | [] => []
  | x :: l' =>
      if existsb (String.eqb x) seen then dedup_seen seen l'
      else x :: dedup_seen (x :: seen) l'
  end.

Definition first_occurrences (l : list string) : list string := dedup_seen [] l.

Definition dict_get {V : Type} (d : list (string * V)) (k : string) : option V :=
  option_map snd (find (fun kv => String.eqb k (fst kv)) d).

Definition is_heatmap (ev : event) : bool :=
  match ev with StHeatmap _ => true | _ => false end.

(** A provider whose snapshots are all read and whose download of "B"
    raises. *)
Definition flaky_provider : provider :=
  MkProvider
    (fun _ => Ok sample_info)
    (fun t => if String.eqb t "B" then Raise "timeout"%string else Ok rising_history).

(** Every character of a text satisfies [f]; the text has the character
    [c]; [sep.join(l)]. *)
Fixpoint all_chars (f : ascii -> bool) (s : string) : bool :=
  match s with
  | EmptyString => true
  | String c s' => f c && all_chars f s'
  end.

Fixpoint contains (c : ascii) (s : string) : bool :=
  match s with
  | EmptyString => false
  | String c' s' => Ascii.eqb c' c || contains c s'
  end.

Fixpoint join (sep : ascii) (l : list string) : string :=
  match l with
  | [] => EmptyString
  | x :: l' =>
      match l' with
      | [] => x
      | _ :: _ => (x ++ String sep (join sep l'))%string
      end
  end.

Definition blank_or_comma (c : ascii) : bool := Py.is_space c || Ascii.eqb c ",".

(** A symbol as the parser produces them. *)
Definition normalised (t : string) : Prop :=
  t <> EmptyString /\ trimmed t /\ Py.upper t = t /\ contains "," t = false.

(** Every close is above (below) the one before. *)
Fixpoint rising_from (prev : Q) (cs : list Q) : bool :=
  match cs with
  | [] => true
  | c :: cs' => match prev ?= c with Lt => rising_from c cs' | _ => false end
  end.

Definition strictly_rising (cs : list Q) : bool :=
  match cs with [] => true | c0 :: cs' => rising_from c0 cs' end.

Fixpoint falling_from (prev : Q) (cs : list Q) : bool :=
  match cs with
  | [] => true
  | c :: cs' => match prev ?= c with Gt => falling_from c cs' | _ => false end
  end.

Definition strictly_falling (cs : list Q) : bool :=
  match cs with [] => true | c0 :: cs' => falling_from c0 cs' end.

Definition falling_history : PriceSeries :=
  map (fun n => (Z.of_nat n, inject_Z (Z.of_nat (40 - n)))) (seq 1 15).

Definition within (lo hi : Q) (x : float) : Prop :=
  match x with Fin q => lo <= q /\ q <= hi | _ => False end.

Definition flat_history : PriceSeries :=
  map (fun n => (Z.of_nat n, 7)) (seq 1 15).

(** A symbol has closes on both dates, not both of them 0. *)
Definition has_return (s : PriceSeries) (d' d : Z) : Prop :=
  exists c c', value_at d s = Fin c /\ value_at d' s = Fin c' /\
               ~ (c == 0 /\ c' == 0).

(** One assignment [hist_data[ticker] = ...] of the fetch loop, made only
    when the download returned. *)
Definition hist_step (p : provider) (d : list (string * PriceSeries)) (t : string)
  : list (string * PriceSeries) :=
  match download p t with
  | Ok h => dict_set d t h
  | Raise _ => d
  end.

(** The positions [i - n + 1 .. i]. *)
Definition trailing (n i : nat) : list nat := seq (S i - n) n.

(* ================================================================== *)
(** ** Lists and sums *)

Section ListFacts.

Context {A B C : Type}.

Lemma zip_with_length (f : A -> B -> C) xs ys :
  List.length (zip_with f xs ys) = Nat.min (List.length xs) (List.length ys).
Proof.
  revert ys; induction xs as [|x xs IH]; intros [|y ys]; simpl; auto.
Qed.

Lemma zip_with_nth (f : A -> B -> C) xs ys i dx dy d :
  (i < List.length xs)%nat -> (i < List.length ys)%nat ->
  nth i (zip_with f xs ys) d = f (nth i xs dx) (nth i ys dy).
Proof.
  revert ys i; induction xs as [|x xs IH]; intros [|y ys] [|i]; simpl; intros;
    try lia; auto.
  apply IH; lia.
Qed.

Lemma zip_with_removelast (f : A -> B -> C) xs ys :
  (List.length xs < List.length ys)%nat ->
  zip_with f xs (removelast ys) = zip_with f xs ys.
Proof.
  revert ys; induction xs as [|x xs IH]; intros ys Hlen.
  - destruct (removelast ys); destruct ys; reflexivity.
  - destruct ys as [|y [|y' ys]]; simpl in Hlen; try lia.
    change (removelast (y :: y' :: ys)) with (y :: removelast (y' :: ys)).
    cbn [zip_with]. f_equal. apply IH. simpl; lia.
Qed.

Lemma skipn_cons_nth (l : list A) i x r d :
  skipn i l = x :: r ->
  nth i l d = x /\ skipn (S i) l = r /\ (i < List.length l)%nat.
Proof.
  revert i; induction l as [|a l IH]; intros [|i] H; simpl in *; try discriminate.
  - inversion H; subst. repeat split; auto. lia.
  - destruct (IH _ H) as (H1 & H2 & H3). repeat split; auto. lia.
Qed.

End ListFacts.

Lemma map_Fin_nth (qs : list Q) i :
  (i < List.length qs)%nat -> nth i (map Fin qs) NaN = Fin (nth i qs 0).
Proof.
  intros Hi. rewrite (nth_indep _ NaN (Fin 0)) by (rewrite length_map; exact Hi).
  apply (map_nth Fin).
Qed.

Lemma sumQ_app l1 l2 : sumQ (l1 ++ l2) == sumQ l1 + sumQ l2.
Proof.
  induction l1 as [|x l1 IH]; simpl.
  - ring.
  - rewrite IH. ring.
Qed.

Lemma firstn_succ_sum (l : list Q) n :
  (n < List.length l)%nat ->
  sumQ (firstn (S n) l) == sumQ (firstn n l) + nth n l 0.
Proof.
  revert n; induction l as [|x l IH]; intros n Hn; simpl in Hn; try lia.
  destruct n as [|n].
  - simpl. ring.
  - change (firstn (S (S n)) (x :: l)) with (x :: firstn (S n) l).
    change (firstn (S n) (x :: l)) with (x :: firstn n l).
    change (nth (S n) (x :: l) 0) with (nth n l 0).
    pose proof (IH n ltac:(lia)) as E.
    unfold sumQ in *. cbn [fold_right]. lra.
Qed.

Lemma sumQ_nonneg (l : list Q) : Forall (fun q => 0 <= q) l -> 0 <= sumQ l.
Proof.
  induction 1 as [|x l Hx _ IH]; simpl.
  - apply Qle_refl.
  - lra.
Qed.

Lemma in_firstn {A : Type} (x : A) n l : In x (firstn n l) -> In x l.
Proof.
  intros H. rewrite <- (firstn_skipn n l). apply in_or_app. now left.
Qed.

Lemma in_skipn {A : Type} (x : A) n l : In x (skipn n l) -> In x l.
Proof.
  intros H. rewrite <- (firstn_skipn n l). apply in_or_app. now right.
Qed.

Lemma Forall_window (P : Q -> Prop) n i cs :
  Forall P cs -> Forall P (window n i cs).
Proof.
  intros H. unfold window. rewrite Forall_forall in *. intros x Hx.
  apply H. apply in_firstn in Hx. now apply in_skipn in Hx.
Qed.

Lemma window_length n i cs :
  (n <= S i)%nat -> (i < List.length cs)%nat -> List.length (window n i cs) = n.
Proof.
  intros H1 H2. unfold window. rewrite length_firstn, length_skipn. lia.
Qed.

Lemma window_nth n i cs k :
  (n <= S i)%nat -> (k < n)%nat ->
  nth k (window n i cs) 0 = nth (S i - n + k) cs 0.
Proof.
  intros H1 H2. unfold window. rewrite nth_firstn.
  destruct (Nat.ltb_spec k n); try lia. apply nth_skipn.
Qed.

(* ================================================================== *)
(** ** The rolling mean of a column without missing values *)

Section Rolling.

Variable win : nat.
Hypothesis win_pos : (1 <= win)%nat.
Variable qs : list Q.

Lemma before_step i :
  (i < List.length qs)%nat ->
  sumQ (before win qs (S i)) ==
  sumQ (before win qs i) - (if (win <=? i)%nat then nth (i - win) qs 0 else 0) + nth i qs 0.
Proof.
  intros Hi. unfold before.
  destruct (Nat.leb_spec win i) as [Hw|Hw].
  - replace (Nat.min (S i) win) with win by lia.
    replace (Nat.min i win) with win by lia.
    replace (S i - win)%nat with (S (i - win)) by lia.
    replace i with ((i - win) + win)%nat at 4 by lia.
    remember (i - win)%nat as j.
    assert (Hj : (j + win < List.length qs)%nat) by lia.
    clear Heqj Hw Hi. revert j Hj.
    induction qs as [|c cs IH]; intros j Hj; simpl in Hj; try lia.
    destruct j as [|j].
    + cbn [skipn]. destruct win as [|w]; try lia.
      rewrite firstn_succ_sum by lia.
      change (firstn (S w) (c :: cs)) with (c :: firstn w cs).
      unfold sumQ; cbn [fold_right].
      change (nth 0 (c :: cs) 0) with c.
      change (nth (0 + S w) (c :: cs) 0) with (nth w cs 0).
      lra.
    + assert (Hj' : (j + win < List.length cs)%nat) by lia.
      exact (IH j Hj').
  - replace (Nat.min (S i) win) with (S i) by lia.
    replace (Nat.min i win) with i by lia.
    replace (S i - win)%nat with 0%nat by lia.
    replace (i - win)%nat with 0%nat by lia.
    cbn [skipn]. rewrite firstn_succ_sum by lia. lra.
Qed.

Lemma roll_step_state i st :
  (i < List.length qs)%nat ->
  nobs st = Nat.min i win ->
  sum_x st == sumQ (before win qs i) ->
  let st2 := add_mean (Fin (nth i qs 0))
               (if (win <=? i)%nat
                then remove_mean (nth (i - win) (map Fin qs) NaN) st
                else st) in
  nobs st2 = Nat.min (S i) win /\ sum_x st2 == sumQ (before win qs (S i)).
Proof.
  intros Hi Hn Hs st2. subst st2.
  pose proof (before_step i Hi) as Hstep.
  destruct (Nat.leb_spec win i) as [Hw|Hw].
  - rewrite map_Fin_nth by lia. cbn [add_mean remove_mean nobs sum_x].
    split; [lia|]. rewrite Hstep, Hs. ring.
  - cbn [add_mean nobs sum_x]. split; [lia|]. rewrite Hstep, Hs. ring.
Qed.

Lemma calc_mean_at i st :
  (i < List.length qs)%nat ->
  nobs st = Nat.min (S i) win ->
  sum_x st == sumQ (before win qs (S i)) ->
  mean_at win qs i (calc_mean win st).
Proof.
  intros Hi Hn Hs. unfold mean_at, calc_mean. rewrite Hn.
  destruct (Nat.ltb_spec (S i) win) as [Hlt|Hge].
  - destruct (Nat.leb_spec win (Nat.min (S i) win)); [lia|reflexivity].
  - replace (Nat.min (S i) win) with win in * by lia.
    rewrite Nat.leb_refl.
    destruct (Nat.ltb_spec 0 win); [|lia]. cbn [andb].
    eexists; split; [reflexivity|].
    unfold arith_mean. rewrite window_length by lia.
    rewrite Hs. unfold before, window.
    replace (Nat.min (S i) win) with win by lia. reflexivity.
Qed.

Lemma roll_mean_from_spec rest :
  forall i st,
    skipn i (map Fin qs) = rest ->
    nobs st = Nat.min i win ->
    sum_x st == sumQ (before win qs i) ->
    forall k, (k < List.length rest)%nat ->
      mean_at win qs (i + k) (nth k (roll_mean_from win win (map Fin qs) i rest st) NaN).
Proof.
  induction rest as [|x rest IH]; intros i st Hsk Hn Hs k Hk; simpl in Hk; [lia|].
  destruct (skipn_cons_nth _ _ _ _ NaN Hsk) as (Hx & Hsk' & Hi).
  rewrite length_map in Hi. rewrite map_Fin_nth in Hx by exact Hi.
  destruct (roll_step_state i st Hi Hn Hs) as [Hn2 Hs2].
  cbn [roll_mean_from]. rewrite <- Hx.
  destruct k as [|k].
  - rewrite Nat.add_0_r. cbn [nth]. now apply calc_mean_at.
  - cbn [nth]. replace (i + S k)%nat with (S i + k)%nat by lia.
    apply IH; auto. lia.
Qed.

Lemma roll_mean_from_length minp values rest :
  forall i st, List.length (roll_mean_from win minp values i rest st) = List.length rest.
Proof.
  induction rest as [|x rest IH]; intros; simpl; auto.
Qed.

Lemma rolling_mean_length (xs : Series) :
  List.length (rolling_mean win xs) = List.length xs.
Proof. apply roll_mean_from_length. Qed.

Lemma rolling_mean_spec i :
  (i < List.length qs)%nat ->
  mean_at win qs i (nth i (rolling_mean win (map Fin qs)) NaN).
Proof.
  intros Hi. unfold rolling_mean.
  apply (roll_mean_from_spec _ 0%nat (MeanState 0 0) eq_refl).
  - reflexivity.
  - unfold before. reflexivity.
  - cbn [skipn]. rewrite length_map. exact Hi.
Qed.

End Rolling.

Lemma rolling_mean_before win qs i :
  (1 <= win)%nat -> (i < List.length qs)%nat -> (S i < win)%nat ->
  nth i (rolling_mean win (map Fin qs)) NaN = NaN.
Proof.
  intros Hw Hi Hlt. pose proof (rolling_mean_spec win Hw qs i Hi) as H.
  unfold mean_at in H. destruct (Nat.ltb_spec (S i) win); [exact H|lia].
Qed.

Lemma rolling_mean_after win qs i :
  (1 <= win)%nat -> (i < List.length qs)%nat -> (win <= S i)%nat ->
  exists v, nth i (rolling_mean win (map Fin qs)) NaN = Fin v /\
            v == arith_mean (window win i qs).
Proof.
  intros Hw Hi Hge. pose proof (rolling_mean_spec win Hw qs i Hi) as H.
  unfold mean_at in H. destruct (Nat.ltb_spec (S i) win); [lia|exact H].
Qed.

(** Counting the available values of a column that is missing exactly on
    its first [m] positions. *)
Lemma count_available_from (l : Series) :
  forall m,
    (forall i, (i < List.length l)%nat -> available (nth i l NaN) = (m <=? i)%nat) ->
    List.length (filter available l) = (List.length l - m)%nat.
Proof.
  induction l as [|x l IH]; intros m H; [reflexivity|].
  cbn [filter]. pose proof (H 0%nat ltac:(simpl; lia)) as H0.
  simpl in H0.
  destruct m as [|m].
  - simpl in H0. rewrite H0. cbn [List.length]. rewrite (IH 0%nat).
    + lia.
    + intros i Hi. apply (H (S i)). simpl; lia.
  - simpl in H0. rewrite H0. cbn [List.length]. rewrite (IH m).
    + lia.
    + intros i Hi. apply (H (S i)). simpl; lia.
Qed.


Lemma closes_map (h : PriceSeries) : closes h = map Fin (close_prices h).
Proof. unfold closes, close_prices. now rewrite map_map. Qed.

Lemma close_prices_length (h : PriceSeries) :
  List.length (close_prices h) = List.length h.
Proof. apply length_map. Qed.

(* ================================================================== *)
(** ** Simple moving averages *)

(** C2.  For a price history of length [L] and a window [n >= 1] (the
    scripts use 20 and 50), the moving-average column has the length of the
    history and exactly [max(0, L - n + 1)] available values; every position
    before [n - 1] is missing; every position from [n - 1] on holds the
    arithmetic mean of the [n] closes that end there; and a history shorter
    than the window gives a column that is missing everywhere. *)
Theorem sma_window_mean (n : nat) (h : PriceSeries) :
  (1 <= n)%nat ->
  let L := List.length h in
  let out := SMA n (closes h) in
  List.length out = L /\
  Z.of_nat (List.length (filter available out))
    = Z.max 0 (Z.of_nat L - Z.of_nat n + 1) /\
  (forall i, (i < L)%nat -> (i < n - 1)%nat -> nth i out NaN = NaN) /\
  (forall i, (i < L)%nat -> (n - 1 <= i)%nat ->
     List.length (window n i (close_prices h)) = n /\
     exists v, nth i out NaN = Fin v /\
               v == arith_mean (window n i (close_prices h))) /\
  ((L < n)%nat -> forall i, (i < L)%nat -> nth i out NaN = NaN).
Proof.
  intros Hn L out. subst L out. unfold SMA. rewrite closes_map.
  pose proof (close_prices_length h) as HL.
  assert (Hlen : List.length (rolling_mean n (map Fin (close_prices h)))
                 = List.length h).
  { rewrite rolling_mean_length, length_map. exact HL. }
  assert (Hbefore : forall i, (i < List.length h)%nat -> (i < n - 1)%nat ->
            nth i (rolling_mean n (map Fin (close_prices h))) NaN = NaN).
  { intros i Hi Hlt. apply rolling_mean_before; lia. }
  assert (Hafter : forall i, (i < List.length h)%nat -> (n - 1 <= i)%nat ->
            exists v, nth i (rolling_mean n (map Fin (close_prices h))) NaN = Fin v /\
                      v == arith_mean (window n i (close_prices h))).
  { intros i Hi Hge. apply rolling_mean_after; lia. }
  split; [exact Hlen|]. split; [|split; [exact Hbefore|split]].
  - rewrite (@count_available_from _ (n - 1)%nat).
    + rewrite Hlen. lia.
    + intros i Hi. rewrite Hlen in Hi.
      destruct (Nat.leb_spec (n - 1) i) as [Hge|Hlt].
      * destruct (Hafter i Hi Hge) as (v & Hv & _). now rewrite Hv.
      * now rewrite Hbefore.
  - intros i Hi Hge. split; [apply window_length; lia|]. now apply Hafter.
  - intros Hshort i Hi. apply Hbefore; lia.
Qed.

Lemma sma_window_mean_witness :
  let h := [(1%Z, 10); (2%Z, 11); (3%Z, 12)] in
  Z.of_nat (List.length (filter available (SMA 2 (closes h)))) = 2%Z.
Proof.
  intros h.
  exact (proj1 (proj2 (sma_window_mean 2 h (le_S 1 1 (le_n 1))))).
Defined.

(* ================================================================== *)
(** ** Gains, losses and the relative strength index *)

Lemma zip_sub_deltas cs : forall c0,
  zip_with sub (map Fin cs) (Fin c0 :: map Fin cs) = map Fin (deltas_from c0 cs).
Proof.
  induction cs as [|c cs IH]; intros c0; [reflexivity|].
  cbn [map zip_with deltas_from]. f_equal. apply IH.
Qed.

Lemma delta_map c0 cs :
  delta (map Fin (c0 :: cs)) = NaN :: map Fin (deltas_from c0 cs).
Proof.
  unfold delta, diff. cbn [map shift].
  change (zip_with sub (Fin c0 :: map Fin cs)
            (NaN :: removelast (Fin c0 :: map Fin cs)))
    with (NaN :: zip_with sub (map Fin cs) (removelast (Fin c0 :: map Fin cs))).
  rewrite zip_with_removelast by (simpl; lia).
  now rewrite zip_sub_deltas.
Qed.

Lemma gain_raw_map cs : gain_raw (map Fin cs) = map Fin (gainsQ cs).
Proof.
  destruct cs as [|c0 cs]; [reflexivity|].
  unfold gain_raw. rewrite delta_map. unfold where_, gt_scalar, gainsQ.
  cbn [map zip_with gtb ltb]. f_equal.
  induction (deltas_from c0 cs) as [|d ds IH]; [reflexivity|].
  cbn [map zip_with]. rewrite IH. f_equal.
  unfold gtb, pos_part; cbn [ltb]. destruct (0 ?= d); reflexivity.
Qed.

Lemma loss_raw_map cs : loss_raw (map Fin cs) = map Fin (lossesQ cs).
Proof.
  destruct cs as [|c0 cs]; [reflexivity|].
  unfold loss_raw. rewrite delta_map.
  unfold where_, lt_scalar, lossesQ, neg_series.
  cbn [map zip_with ltb neg]. f_equal.
  induction (deltas_from c0 cs) as [|d ds IH]; [reflexivity|].
  cbn [map zip_with]. rewrite IH. f_equal.
  unfold neg_part; cbn [ltb]. destruct (d ?= 0); reflexivity.
Qed.

Lemma deltas_from_length cs : forall c0, List.length (deltas_from c0 cs) = List.length cs.
Proof. induction cs; intros; simpl; auto. Qed.

Lemma deltas_from_nth cs : forall c0 i,
  (i < List.length cs)%nat ->
  nth i (deltas_from c0 cs) 0 = nth (S i) (c0 :: cs) 0 - nth i (c0 :: cs) 0.
Proof.
  induction cs as [|c cs IH]; intros c0 i Hi; simpl in Hi; [lia|].
  destruct i as [|i]; [reflexivity|].
  cbn [deltas_from]. change (nth (S i) (c - c0 :: deltas_from c cs) 0)
    with (nth i (deltas_from c cs) 0).
  rewrite IH by lia. reflexivity.
Qed.

Lemma gainsQ_length cs : List.length (gainsQ cs) = List.length cs.
Proof.
  destruct cs; simpl; auto. now rewrite length_map, deltas_from_length.
Qed.

Lemma lossesQ_length cs : List.length (lossesQ cs) = List.length cs.
Proof.
  destruct cs; simpl; auto. now rewrite length_map, deltas_from_length.
Qed.

Lemma pos_part_max d : pos_part d == Qmax d 0.
Proof.
  unfold pos_part. destruct (Qcompare_spec 0 d) as [E|L|G].
  - rewrite <- E. symmetry. apply Q.max_l. apply Qle_refl.
  - symmetry. apply Q.max_l. now apply Qlt_le_weak.
  - symmetry. apply Q.max_r. now apply Qlt_le_weak.
Qed.

Lemma neg_part_max d : neg_part d == Qmax (- d) 0.
Proof.
  unfold neg_part. destruct (Qcompare_spec d 0) as [E|L|G].
  - rewrite Q.max_r; [ring | rewrite E; apply Qle_refl].
  - rewrite Q.max_l; [reflexivity | lra].
  - rewrite Q.max_r; [ring | lra].
Qed.

Lemma gainsQ_nth cs i :
  (i < List.length cs)%nat -> nth i (gainsQ cs) 0 == day_gain cs i.
Proof.
  intros Hi. destruct cs as [|c0 cs]; simpl in Hi; [lia|].
  unfold day_gain, gainsQ. destruct i as [|i]; [reflexivity|].
  cbn [Nat.eqb nth].
  change 0 with (pos_part 0) at 1. rewrite map_nth.
  rewrite deltas_from_nth by lia. rewrite pos_part_max.
  unfold day_delta. replace (S i - 1)%nat with i by lia. reflexivity.
Qed.

Lemma lossesQ_nth cs i :
  (i < List.length cs)%nat -> nth i (lossesQ cs) 0 == day_loss cs i.
Proof.
  intros Hi. destruct cs as [|c0 cs]; simpl in Hi; [lia|].
  unfold day_loss, lossesQ. destruct i as [|i]; [cbn; ring|].
  cbn [Nat.eqb nth].
  rewrite (nth_indep _ 0 (neg_part 0))
    by (rewrite length_map, deltas_from_length; lia).
  rewrite map_nth.
  rewrite deltas_from_nth by lia. rewrite neg_part_max.
  unfold day_delta. replace (S i - 1)%nat with i by lia. reflexivity.
Qed.

Lemma gainsQ_nonneg cs : Forall (fun q => 0 <= q) (gainsQ cs).
Proof.
  destruct cs as [|c0 cs]; constructor; [apply Qle_refl|].
  rewrite Forall_forall. intros x Hx. apply in_map_iff in Hx.
  destruct Hx as (d & <- & _). rewrite pos_part_max. apply Q.le_max_r.
Qed.

Lemma lossesQ_nonneg cs : Forall (fun q => 0 <= q) (lossesQ cs).
Proof.
  destruct cs as [|c0 cs]; constructor; [lra|].
  rewrite Forall_forall. intros x Hx. apply in_map_iff in Hx.
  destruct Hx as (d & <- & _). rewrite neg_part_max. apply Q.le_max_r.
Qed.

Lemma sumQ_pointwise (l1 : list Q) : forall l2,
  List.length l1 = List.length l2 ->
  (forall k, (k < List.length l1)%nat -> nth k l1 0 == nth k l2 0) ->
  sumQ l1 == sumQ l2.
Proof.
  induction l1 as [|x l1 IH]; intros [|y l2] Hlen H; simpl in Hlen; try lia.
  - reflexivity.
  - unfold sumQ; cbn [fold_right]. fold (sumQ l1) (sumQ l2).
    rewrite (IH l2).
    + rewrite (H 0%nat ltac:(simpl; lia)). reflexivity.
    + lia.
    + intros k Hk. apply (H (S k)). simpl; lia.
Qed.

Lemma window_trailing (f : nat -> Q) n i (g : list Q) :
  (n <= S i)%nat -> (i < List.length g)%nat ->
  (forall j, (j < List.length g)%nat -> nth j g 0 == f j) ->
  arith_mean (window n i g) == arith_mean (map f (trailing n i)).
Proof.
  intros Hn Hi Hf. unfold arith_mean.
  rewrite window_length by lia.
  unfold trailing. rewrite length_map, length_seq.
  rewrite (@sumQ_pointwise (window n i g) (map f (seq (S i - n) n))).
  - reflexivity.
  - rewrite window_length by lia. now rewrite length_map, length_seq.
  - intros k Hk. rewrite window_length in Hk by lia.
    rewrite window_nth by lia.
    rewrite (nth_indep (map f (seq (S i - n) n)) 0 (f 0%nat))
      by (rewrite length_map, length_seq; lia).
    rewrite map_nth, seq_nth by lia. apply Hf. lia.
Qed.

(** The two averages of the RSI computation, position by position. *)
Lemma average_gain_loss_at (h : PriceSeries) (i : nat) :
  (i < List.length h)%nat ->
  let cs := close_prices h in
  let close := closes h in
  ((i < 13)%nat ->
     nth i (gain close) NaN = NaN /\ nth i (loss close) NaN = NaN) /\
  ((13 <= i)%nat ->
     exists ag al,
       nth i (gain close) NaN = Fin ag /\ nth i (loss close) NaN = Fin al /\
       ag == arith_mean (map (day_gain cs) (trailing 14 i)) /\
       al == arith_mean (map (day_loss cs) (trailing 14 i))).
Proof.
  intros Hi cs close. subst close. rewrite closes_map. fold cs.
  assert (HL : List.length cs = List.length h) by apply close_prices_length.
  unfold gain, loss. rewrite gain_raw_map, loss_raw_map.
  pose proof (gainsQ_length cs) as Hg. pose proof (lossesQ_length cs) as Hl.
  split.
  - intros Hlt. split; apply rolling_mean_before; lia.
  - intros Hge.
    destruct (@rolling_mean_after 14 (gainsQ cs) i) as (ag & Hag & Eag); try lia.
    destruct (@rolling_mean_after 14 (lossesQ cs) i) as (al & Hal & Eal); try lia.
    exists ag, al. repeat split; auto.
    + rewrite Eag. apply window_trailing; try lia.
      intros j Hj. apply gainsQ_nth. lia.
    + rewrite Eal. apply window_trailing; try lia.
      intros j Hj. apply lossesQ_nth. lia.
Qed.

(** C7.  On a price history, the day-over-day change is missing at position
    0 and [close[i] - close[i-1]] after it; the gain is [max(change, 0)] and
    the loss [max(-change, 0)], both 0 at position 0; the average gain and
    the average loss are missing exactly on positions 0 to 12, and from
    position 13 on they are the plain mean of the gains, and of the losses,
    over the 14 positions ending there. *)
Theorem rsi_average_gain_loss (h : PriceSeries) (i : nat) :
  (i < List.length h)%nat ->
  let cs := close_prices h in
  let close := closes h in
  nth i (delta close) NaN
    = (if (i =? 0)%nat then NaN else Fin (day_delta cs i)) /\
  (exists g, nth i (gain_raw close) NaN = Fin g /\ g == day_gain cs i) /\
  (exists l, nth i (loss_raw close) NaN = Fin l /\ l == day_loss cs i) /\
  ((i < 13)%nat ->
     nth i (gain close) NaN = NaN /\ nth i (loss close) NaN = NaN) /\
  ((13 <= i)%nat ->
     exists ag al,
       nth i (gain close) NaN = Fin ag /\ nth i (loss close) NaN = Fin al /\
       ag == arith_mean (map (day_gain cs) (trailing 14 i)) /\
       al == arith_mean (map (day_loss cs) (trailing 14 i))).
Proof.
  intros Hi cs close.
  destruct (average_gain_loss_at h i Hi) as [Hbefore Hafter].
  fold cs close in Hbefore, Hafter.
  subst close. rewrite closes_map in *. fold cs.
  assert (HL : List.length cs = List.length h) by apply close_prices_length.
  rewrite gain_raw_map, loss_raw_map.
  pose proof (gainsQ_length cs) as Hg. pose proof (lossesQ_length cs) as Hl.
  split; [|split; [|split; [|split]]].
  - destruct cs as [|c0 cs']; simpl in HL; [lia|]. rewrite delta_map.
    destruct i as [|i]; [reflexivity|]. cbn [Nat.eqb nth].
    rewrite map_Fin_nth by (rewrite deltas_from_length; simpl in HL; lia).
    rewrite deltas_from_nth by (simpl in HL; lia).
    unfold day_delta. replace (S i - 1)%nat with i by lia. reflexivity.
  - exists (nth i (gainsQ cs) 0). split.
    + apply map_Fin_nth. lia.
    + apply gainsQ_nth. lia.
  - exists (nth i (lossesQ cs) 0). split.
    + apply map_Fin_nth. lia.
    + apply lossesQ_nth. lia.
  - exact Hbefore.
  - exact Hafter.
Qed.

Lemma rsi_average_gain_loss_witness :
  nth 3 (gain (closes rising_history)) NaN = NaN /\
  nth 3 (loss (closes rising_history)) NaN = NaN.
Proof.
  assert (Hi : (3 < List.length rising_history)%nat) by (cbn; lia).
  assert (H3 : (3 < 13)%nat) by lia.
  exact (proj1 (proj2 (proj2 (proj2 (rsi_average_gain_loss rising_history 3 Hi)))) H3).
Defined.

Lemma rsi_of_positive_loss ag al :
  0 <= ag -> 0 < al ->
  exists v, rsi_of_rs (div (Fin ag) (Fin al)) = Fin v /\ 0 <= v /\ v <= 100.
Proof.
  intros Hag Hal. unfold rsi_of_rs. cbn [div].
  destruct (Qeq_bool al 0) eqn:E.
  { apply Qeq_bool_iff in E. lra. }
  assert (Hr : 0 <= ag / al).
  { apply Qle_shift_div_l; lra. }
  cbn [add div].
  destruct (Qeq_bool (1 + ag / al) 0) eqn:E1.
  { apply Qeq_bool_iff in E1. lra. }
  cbn [sub neg add]. eexists; split; [reflexivity|].
  assert (Ht1 : 0 <= 100 / (1 + ag / al)).
  { apply Qle_shift_div_l; lra. }
  assert (Ht2 : 100 / (1 + ag / al) <= 100).
  { apply Qle_shift_div_r; lra. }
  lra.
Qed.

Lemma rsi_of_zero_loss_gain ag al :
  al == 0 -> 0 < ag -> feq (rsi_of_rs (div (Fin ag) (Fin al))) (Fin 100).
Proof.
  intros Hal Hag. unfold rsi_of_rs. cbn [div].
  apply Qeq_bool_iff in Hal. rewrite Hal.
  apply Qgt_alt in Hag. rewrite Hag. cbn. reflexivity.
Qed.

Lemma rsi_of_zero_loss_zero_gain ag al :
  al == 0 -> ag == 0 -> rsi_of_rs (div (Fin ag) (Fin al)) = NaN.
Proof.
  intros Hal Hag. unfold rsi_of_rs. cbn [div].
  apply Qeq_bool_iff in Hal. rewrite Hal.
  apply Qeq_alt in Hag. rewrite Hag. reflexivity.
Qed.

Lemma arith_mean_nonneg (l : list Q) :
  Forall (fun q => 0 <= q) l -> 0 <= arith_mean l.
Proof.
  intros H. unfold arith_mean. destruct l as [|x l].
  - cbv. discriminate.
  - apply Qle_shift_div_l.
    + change 0 with (inject_Z 0). rewrite <- Zlt_Qlt. simpl List.length. lia.
    + rewrite Qmult_0_l. now apply sumQ_nonneg.
Qed.

Lemma RSI_nth (h : PriceSeries) (i : nat) :
  (i < List.length h)%nat ->
  nth i (RSI (closes h)) NaN
    = rsi_of_rs (div (nth i (gain (closes h)) NaN) (nth i (loss (closes h)) NaN)).
Proof.
  intros Hi. unfold RSI, rs.
  assert (Hg : List.length (gain (closes h)) = List.length h).
  { unfold gain. rewrite rolling_mean_length, closes_map, gain_raw_map,
      length_map, gainsQ_length. apply close_prices_length. }
  assert (Hl : List.length (loss (closes h)) = List.length h).
  { unfold loss. rewrite rolling_mean_length, closes_map, loss_raw_map,
      length_map, lossesQ_length. apply close_prices_length. }
  change NaN with (rsi_of_rs NaN) at 1. rewrite map_nth.
  f_equal. apply zip_with_nth; lia.
Qed.

(** C1.  At every position of a price history: when the index is available
    it is a number between 0 and 100; when the average loss is 0 and the
    average gain is positive it is 100; when both averages are 0 it is the
    missing marker. *)
Theorem rsi_range (h : PriceSeries) (i : nat) :
  (i < List.length h)%nat ->
  let close := closes h in
  let r := nth i (RSI close) NaN in
  (available r = true -> exists v, r = Fin v /\ 0 <= v /\ v <= 100) /\
  (forall ag al,
     nth i (gain close) NaN = Fin ag -> nth i (loss close) NaN = Fin al ->
     al == 0 -> 0 < ag -> feq r (Fin 100)) /\
  (forall ag al,
     nth i (gain close) NaN = Fin ag -> nth i (loss close) NaN = Fin al ->
     al == 0 -> ag == 0 -> r = NaN).
Proof.
  intros Hi close r. subst r close. rewrite (RSI_nth h i Hi).
  split; [|split].
  - destruct (average_gain_loss_at h i Hi) as (Hlt & Hge).
    destruct (Nat.lt_ge_cases i 13) as [H13|H13].
    + destruct (Hlt H13) as [-> _]. cbn. discriminate.
    + destruct (Hge H13) as (ag & al & -> & -> & Eag & Eal).
      assert (Hag : 0 <= ag).
      { rewrite Eag. apply arith_mean_nonneg. rewrite Forall_forall.
        intros x Hx. apply in_map_iff in Hx. destruct Hx as (j & <- & _).
        unfold day_gain. destruct (j =? 0)%nat; [lra|apply Q.le_max_r]. }
      assert (Hal : 0 <= al).
      { rewrite Eal. apply arith_mean_nonneg. rewrite Forall_forall.
        intros x Hx. apply in_map_iff in Hx. destruct Hx as (j & <- & _).
        unfold day_loss. destruct (j =? 0)%nat; [lra|apply Q.le_max_r]. }
      intros Hav.
      destruct (Qlt_le_dec 0 al) as [Hpos|Hzero].
      * now apply rsi_of_positive_loss.
      * assert (Hz : al == 0) by lra.
        destruct (Qlt_le_dec 0 ag) as [Hgpos|Hgzero].
        -- pose proof (rsi_of_zero_loss_gain ag al Hz Hgpos) as F.
           destruct (rsi_of_rs (div (Fin ag) (Fin al))) as [v| | |];
             cbn in F; try contradiction.
           exists v. split; [reflexivity|]. lra.
        -- assert (Hgz : ag == 0) by lra.
           rewrite (rsi_of_zero_loss_zero_gain ag al Hz Hgz) in Hav. discriminate.
  - intros ag al -> -> Hz Hpos. now apply rsi_of_zero_loss_gain.
  - intros ag al -> -> Hz Hgz. now apply rsi_of_zero_loss_zero_gain.
Qed.

Lemma rsi_range_witness :
  feq (nth 14 (RSI (closes rising_history)) NaN) (Fin 100).
Proof.
  assert (Hi : (14 < List.length rising_history)%nat) by (cbn; lia).
  destruct (rsi_range rising_history 14 Hi) as (_ & H & _).
  apply (H (match nth 14 (gain (closes rising_history)) NaN with
            | Fin q => q | _ => 0 end)
           (match nth 14 (loss (closes rising_history)) NaN with
            | Fin q => q | _ => 0 end));
    vm_compute; reflexivity.
Defined.

(* ================================================================== *)
(** ** Exponential moving averages, MACD and its signal line *)

Lemma alpha_of_span (span : Q) :
  1 <= span -> 1 / (1 + get_center_of_mass span) == 2 / (span + 1).
Proof.
  intros H. unfold get_center_of_mass. field.
  repeat split; intros H0; lra.
Qed.

(** One observation on a running value: the next value, as a rational. *)
Lemma ewm_step_finite (alpha : Q) (w c : Q) (n : nat) :
  exists w',
    ewm_step alpha false false (Fin c) (EwmState (Fin w) 1 n)
      = EwmState (Fin w') 1 (S n) /\
    w' == c * alpha + w * (1 - alpha).
Proof.
  unfold ewm_step. cbn [notna isnan negb weighted old_wt ewm_nobs orb eqb].
  destruct (Qeq_bool w c) eqn:E.
  - exists w. split; [reflexivity|]. apply Qeq_bool_iff in E. rewrite E. ring.
  - cbn [mul add div].
    destruct (Qeq_bool (1 * (1 - alpha) + alpha) 0) eqn:E0.
    { apply Qeq_bool_iff in E0. exfalso.
      assert (H1 : 1 * (1 - alpha) + alpha == 1) by ring.
      rewrite H1 in E0. discriminate E0. }
    eexists; split; [reflexivity|]. field.
    intros H0. assert (H1 : 1 - alpha + alpha == 1) by ring.
    rewrite H1 in H0. discriminate H0.
Qed.

Lemma ewm_loop_finite (alpha : Q) (cs : list Q) : forall w n,
  (1 <= n)%nat ->
  exists es,
    ewm_loop alpha false false 1 (map Fin cs) (EwmState (Fin w) 1 n) = map Fin es /\
    ema_follows alpha w cs es.
Proof.
  induction cs as [|c cs IH]; intros w n Hn.
  - exists []. split; [reflexivity|exact I].
  - destruct (ewm_step_finite alpha w c n) as (w' & Hstep & Hw').
    destruct (IH w' (S n) ltac:(lia)) as (es & Hes & Hfol).
    exists (w' :: es). split.
    + cbn [map ewm_loop]. rewrite Hstep, Hes.
      unfold ewm_output. cbn [ewm_nobs weighted].
      destruct (Nat.leb_spec 1 (S n)); [reflexivity|lia].
    + split; assumption.
Qed.

Lemma ema_follows_length k cs : forall prev es,
  ema_follows k prev cs es -> List.length es = List.length cs.
Proof.
  induction cs as [|c cs IH]; intros prev [|e es] H; simpl in H; try contradiction.
  - reflexivity.
  - simpl. f_equal. apply (IH e). tauto.
Qed.

Lemma ema_follows_nth k cs : forall prev es i,
  ema_follows k prev cs es -> (i < List.length cs)%nat ->
  nth i es 0 == nth i cs 0 * k + nth i (prev :: es) 0 * (1 - k).
Proof.
  induction cs as [|c cs IH]; intros prev [|e es] i H Hi; simpl in H, Hi;
    try contradiction; try lia.
  destruct H as [He Hrest]. destruct i as [|i].
  - exact He.
  - change (nth (S i) (e :: es) 0) with (nth i es 0).
    change (nth (S i) (c :: cs) 0) with (nth i cs 0).
    change (nth (S i) (prev :: e :: es) 0) with (nth i (e :: es) 0).
    apply IH; [assumption|lia].
Qed.

Lemma ema_follows_proper k k' cs : k == k' -> forall prev es,
  ema_follows k prev cs es -> ema_follows k' prev cs es.
Proof.
  intros Hk. induction cs as [|c cs IH]; intros prev [|e es] H; simpl in *; auto.
  destruct H as [He Hrest]. split; [|now apply IH]. rewrite <- Hk. exact He.
Qed.

Lemma ewm_mean_finite (span : Q) (cs : list Q) :
  1 <= span ->
  exists ema,
    ewm_mean span false (map Fin cs) = map Fin ema /\
    ema_recurrence (2 / (span + 1)) cs ema.
Proof.
  intros Hspan. unfold ewm_mean, ewm.
  destruct cs as [|c0 cs].
  - exists []. split; [reflexivity|].
    repeat split; intros; simpl in *; try lia; try congruence.
  - cbn [map notna isnan negb].
    destruct (ewm_loop_finite (1 / (1 + get_center_of_mass span)) cs c0 1%nat)
      as (es & Hes & Hfol); [lia|].
    apply (ema_follows_proper _ _ cs (alpha_of_span span Hspan)) in Hfol.
    exists (c0 :: es). split.
    + rewrite Hes. reflexivity.
    + pose proof (ema_follows_length _ _ _ _ Hfol) as Hlen.
      split; [simpl; now rewrite Hlen|]. split; [reflexivity|].
      intros i Hpos Hi. destruct i as [|i]; [lia|]. simpl in Hi.
      change (nth (S i) (c0 :: es) 0) with (nth i es 0).
      change (nth (S i) (c0 :: cs) 0) with (nth i cs 0).
      replace (S i - 1)%nat with i by lia.
      apply ema_follows_nth; [assumption|lia].
Qed.

Lemma zip_sub_finite (xs : list Q) : forall ys,
  zip_with sub (map Fin xs) (map Fin ys) = map Fin (zip_with Qminus xs ys).
Proof.
  induction xs as [|x xs IH]; intros [|y ys]; try reflexivity.
  cbn [map zip_with]. now rewrite IH.
Qed.

(** C3.  The exponential mean the scripts request ([adjust=False]) of a
    column of numbers starts at the first value and then follows
    [ema[i] = x[i] * k + ema[i-1] * (1 - k)] with [k = 2 / (span + 1)]; on
    the closes 10, 11, 12, 11, 13 with span 3 it is 10, 10.5, 11.25, 11.125,
    12.0625; MACD is the span-12 mean minus the span-26 mean of the closes,
    position by position, and the signal line is the span-9 mean of MACD. *)
Theorem macd_ema_recurrence :
  (forall (span : Q) (cs : list Q), 1 <= span ->
     exists ema,
       ewm_mean span false (map Fin cs) = map Fin ema /\
       ema_recurrence (2 / (span + 1)) cs ema) /\
  Forall2 feq (ewm_mean 3 false (map Fin [10; 11; 12; 11; 13]))
              (map Fin [10; 10.5; 11.25; 11.125; 12.0625]) /\
  (forall h : PriceSeries,
     let cs := close_prices h in
     exists e12 e26 macd sig,
       exp1 (closes h) = map Fin e12 /\ ema_recurrence (2 / (12 + 1)) cs e12 /\
       exp2 (closes h) = map Fin e26 /\ ema_recurrence (2 / (26 + 1)) cs e26 /\
       MACD (closes h) = map Fin macd /\
       List.length macd = List.length cs /\
       (forall i, (i < List.length cs)%nat ->
          nth i macd 0 = nth i e12 0 - nth i e26 0) /\
       Signal (closes h) = map Fin sig /\ ema_recurrence (2 / (9 + 1)) macd sig).
Proof.
  split; [exact ewm_mean_finite|]. split.
  - vm_compute. repeat constructor.
  - intros h cs. subst cs. unfold Signal, MACD, exp1, exp2. rewrite closes_map.
    destruct (@ewm_mean_finite 12 (close_prices h)) as (e12 & H12 & R12); [lra|].
    destruct (@ewm_mean_finite 26 (close_prices h)) as (e26 & H26 & R26); [lra|].
    rewrite H12, H26, zip_sub_finite.
    destruct (@ewm_mean_finite 9 (zip_with Qminus e12 e26)) as (sig & Hs & Rs); [lra|].
    exists e12, e26, (zip_with Qminus e12 e26), sig.
    destruct R12 as (L12 & R12). destruct R26 as (L26 & R26).
    repeat split; auto; try tauto.
    + rewrite zip_with_length. lia.
    + intros i Hi. apply zip_with_nth; lia.
    + apply Rs.
    + apply Rs.
    + apply Rs.
Qed.

(* ================================================================== *)
(** ** The return matrix *)

Lemma insert_date_in d l x : In x (insert_date d l) <-> x = d \/ In x l.
Proof.
  induction l as [|y l IH]; simpl.
  - intuition.
  - destruct (Z.compare_spec d y) as [E|L|G]; simpl.
    + subst. intuition.
    + intuition.
    + rewrite IH. intuition.
Qed.

Lemma insert_date_sorted d l :
  StronglySorted Z.lt l -> StronglySorted Z.lt (insert_date d l).
Proof.
  induction 1 as [|y l Hs IH Hall]; simpl.
  - repeat constructor.
  - destruct (Z.compare_spec d y) as [E|L|G].
    + now constructor.
    + constructor; [now constructor|].
      constructor; [exact L|]. rewrite Forall_forall in *.
      intros x Hx. specialize (Hall x Hx). lia.
    + constructor; [exact IH|]. rewrite Forall_forall in *.
      intros x Hx. apply insert_date_in in Hx. destruct Hx as [->|Hx]; [lia|auto].
Qed.

Lemma insert_dates_spec ds : forall acc,
  StronglySorted Z.lt acc ->
  StronglySorted Z.lt (fold_left (fun a d => insert_date d a) ds acc) /\
  (forall x, In x acc \/ In x ds ->
             In x (fold_left (fun a d => insert_date d a) ds acc)).
Proof.
  induction ds as [|d ds IH]; intros acc Hs; simpl.
  - split; [exact Hs|]. intuition.
  - destruct (IH (insert_date d acc) (insert_date_sorted d acc Hs)) as [H1 H2].
    split; [exact H1|]. intros x Hx. apply H2.
    rewrite insert_date_in. intuition.
Qed.

Lemma union_index_from (cols : list (string * PriceSeries)) : forall acc,
  StronglySorted Z.lt acc ->
  let idx := fold_left
               (fun acc col =>
                  fold_left (fun a d => insert_date d a) (dates (snd col)) acc)
               cols acc in
  StronglySorted Z.lt idx /\
  (forall x, In x acc -> In x idx) /\
  (forall col x, In col cols -> In x (dates (snd col)) -> In x idx).
Proof.
  induction cols as [|c cols IH]; intros acc Hs; simpl.
  - repeat split; auto. intros col x [].
  - destruct (insert_dates_spec (dates (snd c)) acc Hs) as [H1 H2].
    destruct (IH _ H1) as (I1 & I2 & I3).
    split; [exact I1|]. split.
    + intros x Hx. apply I2, H2. now left.
    + intros col x [<-|Hcol] Hx.
      * apply I2, H2. now right.
      * now apply (I3 col).
Qed.

Lemma union_index_sorted (cols : list (string * PriceSeries)) : StronglySorted Z.lt (union_index cols).
Proof. apply (union_index_from cols [] (SSorted_nil Z.lt)). Qed.

Lemma union_index_covers (cols : list (string * PriceSeries)) col x :
  In col cols -> In x (dates (snd col)) -> In x (union_index cols).
Proof. apply (union_index_from cols [] (SSorted_nil Z.lt)). Qed.

Lemma sorted_app_inv (l1 l2 : list Z) :
  StronglySorted Z.lt (l1 ++ l2) ->
  StronglySorted Z.lt l1 /\ StronglySorted Z.lt l2 /\
  (forall x y, In x l1 -> In y l2 -> (x < y)%Z).
Proof.
  induction l1 as [|a l1 IH]; simpl; intros H.
  - repeat split; auto. constructor. intros x y [].
  - inversion H as [|? ? Hs Hall]; subst.
    destruct (IH Hs) as (H1 & H2 & H3).
    rewrite Forall_forall in Hall.
    repeat split; auto.
    + constructor; auto. rewrite Forall_forall. intros x Hx.
      apply Hall. apply in_or_app. now left.
    + intros x y [<-|Hx] Hy; auto. apply Hall. apply in_or_app. now right.
Qed.

(** In a strictly ascending list, neighbours are in order and nothing lies
    between them. *)
Lemma adjacent_sorted (l : list Z) a b :
  StronglySorted Z.lt l -> adjacent l a b ->
  (a < b)%Z /\ In a l /\ In b l /\
  (forall x, In x l -> ~ (a < x < b)%Z).
Proof.
  intros Hs (l1 & l2 & ->).
  destruct (sorted_app_inv _ _ Hs) as (_ & H2 & H12).
  inversion H2 as [|? ? Hs2 Ha]; subst.
  inversion Hs2 as [|? ? Hs3 Hb]; subst.
  rewrite Forall_forall in Ha, Hb.
  split; [apply Ha; now left|].
  split; [apply in_or_app; right; now left|].
  split; [apply in_or_app; right; right; now left|].
  intros x Hx [Hax Hxb]. apply in_app_or in Hx.
  destruct Hx as [Hx|[<-|[<-|Hx]]]; try lia.
  - specialize (H12 x a Hx (or_introl eq_refl)). lia.
  - specialize (Hb x Hx). lia.
Qed.

Lemma adjacent_not_head (d0 : Z) rest a b :
  StronglySorted Z.lt (d0 :: rest) -> adjacent (d0 :: rest) a b -> b <> d0.
Proof.
  intros Hs Hadj. destruct (adjacent_sorted _ _ _ Hs Hadj) as (Hab & Ha & _).
  inversion Hs as [|? ? _ Hall]; subst. rewrite Forall_forall in Hall.
  destruct Ha as [<-|Ha]; [lia|]. specialize (Hall a Ha). lia.
Qed.

Lemma value_at_in d (h : PriceSeries) c : value_at d h = Fin c -> In (d, c) h.
Proof.
  unfold value_at. destruct (find _ h) as [[d1 c1]|] eqn:E; [|discriminate].
  intros H. injection H as <-. apply find_some in E. destruct E as [Hin Heq].
  simpl in Heq. apply Z.eqb_eq in Heq. now subst.
Qed.

Lemma value_at_cases d (h : PriceSeries) :
  value_at d h = NaN \/ exists c, value_at d h = Fin c.
Proof.
  unfold value_at. destruct (find _ h) as [p|]; [right; eauto|now left].
Qed.

Lemma in_dates d c (h : PriceSeries) : In (d, c) h -> In d (dates h).
Proof. intros H. unfold dates. now apply (in_map fst) in H. Qed.

(** Two entries of an ascending history with no date of it in between are
    consecutive entries. *)
Lemma entries_adjacent (s : PriceSeries) d' c' d c :
  ascending s -> In (d', c') s -> In (d, c) s -> (d' < d)%Z ->
  (forall x, In x (dates s) -> ~ (d' < x < d)%Z) ->
  exists j, nth_error s j = Some (d', c') /\ nth_error s (S j) = Some (d, c).
Proof.
  unfold ascending. induction s as [|[x cx] s IH]; intros Hs H1 H2 Hlt Hno; [contradiction|].
  cbn [dates map fst] in Hs. inversion Hs as [|? ? Hs' Hall]; subst.
  rewrite Forall_forall in Hall.
  destruct H1 as [E1|H1].
  - injection E1 as -> ->.
    destruct H2 as [E2|H2]; [injection E2 as E2 _; lia|].
    destruct s as [|[y cy] s]; [contradiction|].
    exists 0%nat. split; [reflexivity|]. cbn [nth_error].
    assert (Hy : (d' < y)%Z) by (apply Hall; now left).
    cbn [map fst] in Hs'. inversion Hs' as [|? ? _ Hall']; subst.
    rewrite Forall_forall in Hall'.
    destruct H2 as [E2|H2].
    + now rewrite E2.
    + exfalso. apply (Hno y); [right; now left|].
      specialize (Hall' d (in_dates _ _ _ H2)). lia.
  - assert (Hx : (x < d')%Z) by (apply Hall; exact (in_dates _ _ _ H1)).
    destruct H2 as [E2|H2]; [injection E2 as E2 _; lia|].
    destruct (IH Hs' H1 H2 Hlt) as (j & J1 & J2).
    + intros z Hz. apply Hno. now right.
    + exists (S j). split; assumption.
Qed.

Lemma pct_available (x y : float) :
  (x = NaN \/ exists c, x = Fin c) -> (y = NaN \/ exists c, y = Fin c) ->
  notna (pct x y) = true -> exists c c', x = Fin c /\ y = Fin c'.
Proof.
  intros [->|(c & ->)] [->|(c' & ->)] H; try discriminate H; eauto.
Qed.

Lemma pct_return_eq (c c' : Q) :
  feq (mul (pct (Fin c) (Fin c')) (Fin 100)) (pct_return c c').
Proof.
  unfold pct, pct_return. cbn [sub neg add div].
  destruct (Qeq_bool c' 0) eqn:E.
  - apply Qeq_bool_iff in E.
    assert (Hc : (c + - c' ?= 0) = (c ?= 0)).
    { apply Qcompare_comp; [rewrite E; ring|reflexivity]. }
    rewrite Hc. destruct (c ?= 0); cbn; exact I.
  - apply Qeq_bool_neq in E. cbn [sub neg add mul feq]. field. exact E.
Qed.

Lemma zip_with_map_same {A B C D : Type} (f : B -> C -> D) (g1 : A -> B)
  (g2 : A -> C) (l : list A) :
  zip_with f (map g1 l) (map g2 l) = map (fun a => f (g1 a) (g2 a)) l.
Proof. induction l; simpl; congruence. Qed.

Lemma adjacent_cons {A : Type} (x : A) l a b : adjacent l a b -> adjacent (x :: l) a b.
Proof. intros (l1 & l2 & ->). now exists (x :: l1), l2. Qed.

Lemma pct_change_from_in (hist : list (string * PriceSeries)) rest :
  forall dprev d cs,
    In (d, cs) (pct_change_from (snd (row_at hist dprev)) (map (row_at hist) rest)) ->
    exists d', adjacent (dprev :: rest) d' d /\
               cs = zip_with pct (snd (row_at hist d)) (snd (row_at hist d')).
Proof.
  induction rest as [|r rest IH]; intros dprev d cs H; [contradiction|].
  cbn [map pct_change_from] in H. destruct H as [E|H].
  - cbn [row_at fst snd] in E. injection E as <- <-.
    exists dprev. split; [now exists [], rest|reflexivity].
  - destruct (IH _ _ _ H) as (d' & Hadj & Hcs).
    exists d'. split; [now apply adjacent_cons|exact Hcs].
Qed.

Lemma returns_row_inv (hist : list (string * PriceSeries)) d cells :
  hist <> [] ->
  In (d, cells) (rows (returns hist)) ->
  exists d',
    adjacent (union_index hist) d' d /\
    cells = map (fun col => mul (pct (value_at d (snd col)) (value_at d' (snd col)))
                                (Fin 100)) hist /\
    (forall col, In col hist ->
       notna (pct (value_at d (snd col)) (value_at d' (snd col))) = true).
Proof.
  intros Hne Hin. unfold returns, mul_scalar, dropna, pct_change, of_dict in Hin.
  cbn [rows columns] in Hin. apply in_map_iff in Hin.
  destruct Hin as ([d1 cs0] & E & Hin). cbn [fst snd] in E. injection E as -> <-.
  apply filter_In in Hin. destruct Hin as [Hin Hall]. cbn [snd] in Hall.
  destruct (union_index hist) as [|d0 rest] eqn:Eidx; [contradiction|].
  cbn [map] in Hin. destruct Hin as [E|Hin].
  - exfalso. cbn [row_at fst snd] in E. injection E as _ <-.
    destruct hist as [|col hist]; [congruence|]. discriminate Hall.
  - destruct (pct_change_from_in _ _ _ _ _ Hin) as (d' & Hadj & ->).
    exists d'. split; [exact Hadj|]. cbn [row_at snd] in *.
    rewrite zip_with_map_same in *. split; [now rewrite map_map|].
    intros col Hcol. rewrite forallb_forall in Hall. apply Hall.
    now apply (in_map (fun a => pct (value_at d (snd a)) (value_at d' (snd a)))).
Qed.

Section DoubleCell.

Import PrimFloat.
Set Warnings "-inexact-float".

(** C4 as stated fails on "exactly": in double precision the cell the script
    computes for closes 12 then 14 (symbol "A" of [sample_hist_data], dates 3
    and 5) is not the value of [(14 - 12) / 12 * 100]. *)
Lemma return_cell_not_exact :
  Double.cell 14 12 = 16.666666666666675%float /\
  Double.claimed 14 12 = 16.666666666666664%float /\
  PrimFloat.eqb (Double.cell 14 12) (Double.claimed 14 12) = false.
Proof. repeat split; reflexivity. Qed.

End DoubleCell.

(** C4, amended.  For price histories with ascending dates (at least one
    column): the return matrix has no row for the first date of the aligned
    index; every row's date is a date of every symbol; and on a row for date
    [d] the cell of each symbol is computed as [(c / c' - 1) * 100], where
    [c] is the symbol's close on [d] and [c'] its close on the entry just
    before [d] in its own history -- the same earlier date for all symbols.
    In exact arithmetic that is [(c - c') / c' * 100]. *)
Theorem return_matrix_cells (hist : list (string * PriceSeries)) :
  hist <> [] ->
  (forall col, In col hist -> ascending (snd col)) ->
  forall d cells, In (d, cells) (rows (returns hist)) ->
    (forall d0, hd_error (union_index hist) = Some d0 -> d <> d0) /\
    (forall col, In col hist -> In d (dates (snd col))) /\
    List.length cells = List.length hist /\
    exists d', (d' < d)%Z /\
      forall k t s, nth_error hist k = Some (t, s) ->
        exists j c c',
          nth_error s j = Some (d', c') /\ nth_error s (S j) = Some (d, c) /\
          nth k cells NaN = mul (sub (div (Fin c) (Fin c')) (Fin 1)) (Fin 100) /\
          feq (nth k cells NaN) (pct_return c c').
Proof.
  intros Hne Hasc d cells Hin.
  destruct (returns_row_inv hist d cells Hne Hin) as (d' & Hadj & -> & Hav).
  pose proof (union_index_sorted hist) as Hsorted.
  destruct (adjacent_sorted _ _ _ Hsorted Hadj) as (Hlt & Hd' & Hd & Hbetween).
  assert (Hcol : forall col, In col hist ->
            exists c c', value_at d (snd col) = Fin c /\
                         value_at d' (snd col) = Fin c').
  { intros col Hc. apply pct_available; auto using value_at_cases. }
  split; [|split; [|split; [apply length_map|]]].
  - intros d0 Hhd. destruct (union_index hist) as [|x rest]; [discriminate|].
    injection Hhd as ->. now apply (adjacent_not_head _ _ _ _ Hsorted Hadj).
  - intros col Hc. destruct (Hcol col Hc) as (c & _ & Hv & _).
    apply value_at_in in Hv. exact (in_dates _ _ _ Hv).
  - exists d'. split; [exact Hlt|]. intros k t s Hk.
    assert (Hc : In (t, s) hist) by (eapply nth_error_In; eassumption).
    destruct (Hcol _ Hc) as (c & c' & Hv & Hv'). cbn [snd] in Hv, Hv'.
    destruct (entries_adjacent s d' c' d c) as (j & J1 & J2);
      auto using value_at_in.
    + exact (Hasc _ Hc).
    + intros x Hx. apply Hbetween.
      exact (union_index_covers hist (t, s) x Hc Hx).
    + exists j, c, c'. split; [exact J1|]. split; [exact J2|].
      rewrite (nth_error_nth _ _ NaN (map_nth_error _ _ _ Hk)).
      cbn [snd]. rewrite Hv, Hv'. split; [reflexivity|apply pct_return_eq].
Qed.

Lemma return_matrix_cells_witness :
  exists d', (d' < 5)%Z /\
    forall k t s, nth_error sample_hist_data k = Some (t, s) ->
      exists j c c',
        nth_error s j = Some (d', c') /\ nth_error s (S j) = Some (5%Z, c) /\
        nth k [Fin (200 # 12); Fin (100 # 6)] NaN
          = mul (sub (div (Fin c) (Fin c')) (Fin 1)) (Fin 100) /\
        feq (nth k [Fin (200 # 12); Fin (100 # 6)] NaN) (pct_return c c').
Proof.
  assert (Hne : sample_hist_data <> []) by discriminate.
  assert (Hasc : forall col, In col sample_hist_data -> ascending (snd col)).
  { intros col [<-|[<-|[]]]; unfold ascending; cbn; repeat constructor. }
  assert (Hin : In (5%Z, [Fin (200 # 12); Fin (100 # 6)])
                   (rows (returns sample_hist_data))).
  { vm_compute. left. reflexivity. }
  exact (proj2 (proj2 (proj2 (return_matrix_cells sample_hist_data Hne Hasc
                                5%Z [Fin (200 # 12); Fin (100 # 6)] Hin)))).
Defined.

(* ================================================================== *)
(** ** The fetch loop *)

Section FetchLoop.

Variable v : variant.
Variable p : provider.

Lemma fetch_fold (ts : list string) : forall st,
  data (fold_left (fetch_one v p) ts st) = data st ++ rows_for v p ts /\
  errors (fold_left (fetch_one v p) ts st) = errors st ++ errors_for p ts.
Proof.
  induction ts as [|t ts IH]; intros st; cbn [fold_left rows_for errors_for flat_map].
  - now rewrite !app_nil_r.
  - destruct (IH (fetch_one v p st t)) as [Hd He]. rewrite Hd, He.
    unfold fetch_one.
    destruct (info_of p t) as [info|e]; [destruct (download p t) as [h|e]|];
      cbn [data errors]; rewrite <- ?app_assoc; split; reflexivity.
Qed.

Lemma fetch_all_data (ts : list string) : data (fetch_all v p ts) = rows_for v p ts.
Proof. exact (proj1 (fetch_fold ts (MkFetched [] [] []))). Qed.

Lemma fetch_all_errors (ts : list string) : errors (fetch_all v p ts) = errors_for p ts.
Proof. exact (proj2 (fetch_fold ts (MkFetched [] [] []))). Qed.


Lemma errors_for_app (l1 l2 : list string) :
  errors_for p (l1 ++ l2) = errors_for p l1 ++ errors_for p l2.
Proof. apply flat_map_app. Qed.


Lemma rows_for_in (ts : list string) row :
  In row (rows_for v p ts) ->
  In (Ticker row) ts /\
  exists info, info_of p (Ticker row) = Ok info /\ row = make_row v (Ticker row) info.
Proof.
  unfold rows_for. rewrite in_flat_map. intros (t & Ht & Hrow).
  destruct (info_of p t) as [info|e] eqn:E; [|contradiction].
  destruct Hrow as [<-|[]]. cbn [make_row Ticker]. split; [exact Ht|]. now exists info.
Qed.


End FetchLoop.

(* ================================================================== *)
(** ** Summary averages *)

Lemma astype_float_numbers (l : list Q) : astype_float (map VNum l) = Some l.
Proof.
  induction l as [|q l IH]; [reflexivity|]. cbn [map astype_float]. now rewrite IH.
Qed.

Lemma dropna_get_num (v : variant) (fields : list (option Q)) :
  dropna_col (match v with
              | Xlsx => replace_str "N/A" VNA (map (get_num v) fields)
              | Csv => map (get_num v) fields
              end) = map VNum (present fields).
Proof.
  unfold dropna_col, replace_str, present.
  destruct v; induction fields as [|[q|] fields IH]; try reflexivity;
    cbn [map get_num missing filter flat_map app String.eqb Ascii.eqb Bool.eqb];
    now rewrite IH.
Qed.

Lemma average_get_num (v : variant) (fields : list (option Q)) :
  average v (map (get_num v) fields) = Some (mean (present fields)).
Proof.
  unfold average. rewrite dropna_get_num, astype_float_numbers. reflexivity.
Qed.

Lemma table_column (v : variant) (col : MetricsRow -> value)
  (f : InfoRecord -> option Q) (entries : list (string * InfoRecord)) :
  (forall t info, col (make_row v t info) = get_num v (f info)) ->
  map col (table_of v entries) = map (get_num v) (map (fun e => f (snd e)) entries).
Proof.
  intros H. unfold table_of. rewrite !map_map. apply map_ext. intros e. apply H.
Qed.

Lemma summary_table (v : variant) (entries : list (string * InfoRecord)) :
  summary v (table_of v entries) =
  Some [StMetric "Avg Price" (metric_value (mean (field_values currentPrice entries)));
        StMetric "Avg Market Cap" (metric_value (mean (field_values marketCap entries)));
        StMetric "Avg P/E Ratio" (metric_value (mean (field_values trailingPE entries)))].
Proof.
  unfold summary.
  rewrite (table_column v PERatio trailingPE), (table_column v Price currentPrice),
    (table_column v MarketCap marketCap) by reflexivity.
  rewrite !average_get_num. reflexivity.
Qed.

(** C6.  For every metrics table, each summary average is the mean of the
    values its own field has in the rows where the provider gave one (so each
    average has its own denominator); a field no row has gives the missing
    marker, shown as "N/A".  Price-earnings values 10, missing, 20 average to
    15 over 2 rows. *)
Theorem summary_averages (v : variant) (entries : list (string * InfoRecord)) :
  let avg f := metric_value (mean (field_values f entries)) in
  summary v (table_of v entries) =
    Some [StMetric "Avg Price" (avg currentPrice);
          StMetric "Avg Market Cap" (avg marketCap);
          StMetric "Avg P/E Ratio" (avg trailingPE)] /\
  (forall f, field_values f entries = [] -> avg f = None) /\
  (forall f, field_values f entries <> [] ->
             avg f = Some (Fin (arith_mean (field_values f entries)))) /\
  (exists a, average v (map (get_num v) [Some 10; None; Some 20]) = Some a /\
             feq a (Fin 15)) /\
  List.length (present [Some 10; None; Some 20]) = 2%nat.
Proof.
  intros avg. subst avg. split; [apply summary_table|]. split; [|split; [|split]].
  - intros f ->. reflexivity.
  - intros f Hne. destruct (field_values f entries); [congruence|reflexivity].
  - eexists. split; [apply average_get_num|]. vm_compute. reflexivity.
  - reflexivity.
Qed.

(* ================================================================== *)
(** ** The page *)

Section Page.

Variable v : variant.
Variable p : provider.

Lemma rows_for_table (ts : list string) :
  rows_for v p ts = table_of v (entries_for p ts).
Proof.
  unfold rows_for, table_of, entries_for.
  induction ts as [|t ts IH]; [reflexivity|]. cbn [flat_map].
  rewrite map_app, <- IH. now destruct (info_of p t).
Qed.

Lemma generate_without_rows (ts : list string) :
  data (fetch_all v p ts) = [] -> generate v p ts = errors (fetch_all v p ts).
Proof.
  intros H. unfold generate, output_stage. rewrite H. apply app_nil_r.
Qed.

Lemma generate_with_rows (ts : list string) :
  data (fetch_all v p ts) <> [] ->
  exists metrics,
    filter chart_event metrics = [] /\
    generate v p ts =
      errors (fetch_all v p ts) ++
      [StSubheader "Stock Metrics"; StDataframe (data (fetch_all v p ts));
       StSubheader "Market Sentiment Summary"] ++
      metrics ++ [StDownloadButton (data (fetch_all v p ts))] ++
      heatmap (hist_data (fetch_all v p ts)) ++
      (if heatmap_raises (hist_data (fetch_all v p ts)) then [] else charts v p ts).
Proof.
  intros H. unfold generate, output_stage.
  destruct (data (fetch_all v p ts)) as [|r rs] eqn:E; [congruence|].
  rewrite <- E. rewrite fetch_all_data, rows_for_table, summary_table.
  eexists. split; [|reflexivity]. reflexivity.
Qed.

Lemma errors_not_chart (ts : list string) :
  filter chart_event (errors_for p ts) = [].
Proof.
  induction ts as [|t ts IH]; [reflexivity|].
  cbn [errors_for flat_map]. rewrite filter_app. fold (errors_for p ts). rewrite IH.
  destruct (info_of p t); [destruct (download p t)|]; reflexivity.
Qed.

Lemma heatmap_not_chart hist : filter chart_event (heatmap hist) = [].
Proof.
  destruct hist as [|c hist]; [reflexivity|]. cbn [heatmap filter chart_event].
  now destruct (heatmap_raises (c :: hist)).
Qed.

Lemma chart_loop_events (ts : list string) :
  filter chart_event (map (chart_one v p) ts) = map (chart_one v p) ts.
Proof.
  induction ts as [|t ts IH]; [reflexivity|]. cbn [map filter].
  rewrite IH. unfold chart_one. now destruct (download p t).
Qed.

Lemma generate_chart_events (ts : list string) :
  data (fetch_all v p ts) <> [] ->
  filter chart_event (generate v p ts)
  = if heatmap_raises (hist_data (fetch_all v p ts)) then []
    else map (chart_one v p) ts.
Proof.
  intros H. destruct (generate_with_rows ts H) as (metrics & Hm & ->).
  rewrite fetch_all_errors.
  rewrite !filter_app, errors_not_chart, Hm, heatmap_not_chart.
  cbn [filter chart_event app].
  destruct (heatmap_raises (hist_data (fetch_all v p ts))); [reflexivity|].
  unfold charts. cbn [filter chart_event]. apply chart_loop_events.
Qed.

Lemma in_chart_events (ts : list string) ev :
  data (fetch_all v p ts) <> [] ->
  heatmap_raises (hist_data (fetch_all v p ts)) = false ->
  chart_event ev = true ->
  (In ev (generate v p ts) <-> In ev (map (chart_one v p) ts)).
Proof.
  intros H Hh Hev. pose proof (generate_chart_events ts H) as E. rewrite Hh in E.
  rewrite <- E, filter_In. tauto.
Qed.

End Page.



(** C10.  When every requested symbol's snapshot fetch raises, no row is
    collected and the page shows the error reports only, one per requested
    entry: no table, no summary, no download, no heat map and no chart.  The
    same holds whenever no row was collected. *)
Theorem no_rows_no_output (v : variant) (p : provider) (ts : list string) :
  (forall t, In t ts -> exists e, info_of p t = Raise e) ->
  data (fetch_all v p ts) = [] /\
  generate v p ts = map (info_error p) ts /\
  forallb is_error (generate v p ts) = true /\
  (forall v' p' ts', data (fetch_all v' p' ts') = [] ->
     generate v' p' ts' = errors (fetch_all v' p' ts')).
Proof.
  intros Hall.
  assert (Hd : data (fetch_all v p ts) = []).
  { rewrite fetch_all_data. induction ts as [|t ts' IH]; [reflexivity|].
    cbn [rows_for flat_map]. destruct (Hall t (or_introl eq_refl)) as [e ->].
    apply IH. intros t' Ht'. apply Hall. now right. }
  assert (Hg : generate v p ts = map (info_error p) ts).
  { rewrite (generate_without_rows v p ts Hd), fetch_all_errors.
    clear Hd. induction ts as [|t ts' IH]; [reflexivity|].
    cbn [errors_for flat_map map]. unfold info_error at 1.
    destruct (Hall t (or_introl eq_refl)) as [e ->].
    cbn [app]. f_equal. apply IH. intros t' Ht'. apply Hall. now right. }
  split; [exact Hd|]. split; [exact Hg|]. split.
  - rewrite Hg. apply forallb_forall. intros ev Hev.
    apply in_map_iff in Hev. now destruct Hev as (t & <- & _).
  - intros v' p' ts'. apply generate_without_rows.
Qed.

Lemma no_rows_no_output_witness :
  generate Csv failing_provider ["A"; "B"]%string
    = [StError "A" "no data"; StError "B" "no data"].
Proof.
  refine (proj1 (proj2 (no_rows_no_output Csv failing_provider ["A"; "B"]%string _))).
  intros t _. now exists "no data"%string.
Defined.

(** C8 as stated fails: on "A", "B", "C" with the snapshot of "B" failing,
    the spreadsheet script still charts the indicators of "B". *)
Lemma failed_symbol_still_charted :
  info_of sample_provider "B" = Raise "no data" /\
  rows_of "B" (data (fetch_all Xlsx sample_provider ["A"; "B"; "C"]%string)) = [] /\
  In (StChart "B" (chart_lines Xlsx rising_history))
     (generate Xlsx sample_provider ["A"; "B"; "C"]%string).
Proof.
  split; [reflexivity|]. split; [reflexivity|].
  apply in_chart_events; [discriminate|vm_compute; reflexivity|reflexivity|].
  right. left. reflexivity.
Qed.

(** C8, amended.  A symbol whose snapshot fetch raised has no row in the
    table, but it is not excluded from the indicator outputs.  Whenever the
    chart loop is reached (at least one row was collected and the heat map
    did not raise), it runs over every requested symbol with a price download
    of its own: the chart and warning events of the page are exactly one per
    requested entry, in order; a symbol whose download succeeds gets a chart
    of its indicators, also when its snapshot fetch had failed; a symbol
    whose download raises gets a warning and no chart. *)
Theorem chart_loop_covers_every_symbol (v : variant) (p : provider)
  (ts : list string) :
  data (fetch_all v p ts) <> [] ->
  heatmap_raises (hist_data (fetch_all v p ts)) = false ->
  filter chart_event (generate v p ts) = map (chart_one v p) ts /\
  (forall t h, In t ts -> download p t = Ok h ->
     In (StChart t (chart_lines v h)) (generate v p ts)) /\
  (forall t e, In t ts -> download p t = Raise e ->
     In (StWarning t e) (generate v p ts) /\
     forall lines, ~ In (StChart t lines) (generate v p ts)) /\
  (forall t e, info_of p t = Raise e -> rows_of t (data (fetch_all v p ts)) = []).
Proof.
  intros Hdata Hheat. split.
  { rewrite (generate_chart_events v p ts Hdata). now rewrite Hheat. }
  split; [|split].
  - intros t h Ht Hd. apply in_chart_events; [assumption|assumption|reflexivity|].
    apply in_map_iff. exists t. split; [|exact Ht]. unfold chart_one. now rewrite Hd.
  - intros t e Ht Hd. split.
    + apply in_chart_events; [assumption|assumption|reflexivity|].
      apply in_map_iff. exists t. split; [|exact Ht]. unfold chart_one. now rewrite Hd.
    + intros lines Hin.
      apply in_chart_events in Hin; [|assumption|assumption|reflexivity].
      apply in_map_iff in Hin. destruct Hin as (t' & Hev & _).
      unfold chart_one in Hev. destruct (download p t') eqn:E; [|discriminate].
      injection Hev as -> _. congruence.
  - intros t e Hinfo. rewrite fetch_all_data. unfold rows_of.
    destruct (filter _ (rows_for v p ts)) as [|r rs] eqn:E; [reflexivity|].
    assert (Hr : In r (filter (fun r => String.eqb (Ticker r) t) (rows_for v p ts))).
    { rewrite E. now left. }
    apply filter_In in Hr. destruct Hr as [Hr Heq]. apply String.eqb_eq in Heq.
    destruct (rows_for_in v p ts r Hr) as (_ & info & Hok & _). congruence.
Qed.

Lemma chart_loop_covers_every_symbol_witness :
  In (StChart "B" (chart_lines Csv rising_history))
     (generate Csv sample_provider ["A"; "B"; "C"]%string).
Proof.
  assert (Hdata : data (fetch_all Csv sample_provider ["A"; "B"; "C"]%string) <> [])
    by discriminate.
  assert (Hheat : heatmap_raises
                    (hist_data (fetch_all Csv sample_provider ["A"; "B"; "C"]%string))
                  = false) by (vm_compute; reflexivity).
  apply (proj1 (proj2 (chart_loop_covers_every_symbol Csv sample_provider
                         ["A"; "B"; "C"]%string Hdata Hheat))).
  - right. left. reflexivity.
  - reflexivity.
Defined.

(* ================================================================== *)
(** ** The symbol list *)

Lemma is_space_upper (c : ascii) : Py.is_space (Py.upper_char c) = Py.is_space c.
Proof. destruct c as [[] [] [] [] [] [] [] []]; reflexivity. Qed.

Lemma upper_char_idem (c : ascii) : Py.upper_char (Py.upper_char c) = Py.upper_char c.
Proof. destruct c as [[] [] [] [] [] [] [] []]; reflexivity. Qed.

Lemma upper_idem (s : string) : Py.upper (Py.upper s) = Py.upper s.
Proof.
  induction s as [|c s IH]; [reflexivity|]. cbn [Py.upper].
  now rewrite upper_char_idem, IH.
Qed.

Lemma lstrip_upper (s : string) : Py.lstrip (Py.upper s) = Py.upper (Py.lstrip s).
Proof.
  induction s as [|c s IH]; [reflexivity|]. cbn [Py.upper Py.lstrip].
  rewrite is_space_upper. destruct (Py.is_space c); [exact IH|reflexivity].
Qed.

Lemma rstrip_upper (s : string) : Py.rstrip (Py.upper s) = Py.upper (Py.rstrip s).
Proof.
  induction s as [|c s IH]; [reflexivity|]. cbn [Py.upper Py.rstrip].
  rewrite IH, is_space_upper.
  destruct (Py.rstrip s); [destruct (Py.is_space c)|]; reflexivity.
Qed.

Lemma rstrip_idem (s : string) : Py.rstrip (Py.rstrip s) = Py.rstrip s.
Proof.
  induction s as [|c s IH]; [reflexivity|]. cbn [Py.rstrip].
  destruct (Py.rstrip s) as [|c' r] eqn:E.
  - destruct (Py.is_space c) eqn:Ec; [reflexivity|]. cbn [Py.rstrip]. now rewrite Ec.
  - cbn [Py.rstrip]. cbn [Py.rstrip] in IH. now rewrite IH.
Qed.

Lemma lstrip_head (s : string) :
  Py.lstrip s = EmptyString \/
  exists c r, Py.lstrip s = String c r /\ Py.is_space c = false.
Proof.
  induction s as [|c s IH]; [now left|]. cbn [Py.lstrip].
  destruct (Py.is_space c) eqn:E; [exact IH|]. right. now exists c, s.
Qed.

Lemma rstrip_head (c : ascii) (r : string) :
  Py.is_space c = false -> exists r', Py.rstrip (String c r) = String c r'.
Proof.
  intros E. cbn [Py.rstrip]. destruct (Py.rstrip r); [rewrite E|]; eauto.
Qed.

Lemma strip_trimmed (s : string) : trimmed (Py.strip s).
Proof.
  unfold trimmed, Py.strip. split; [|apply rstrip_idem].
  destruct (lstrip_head s) as [->|(c & r & -> & E)]; [reflexivity|].
  destruct (rstrip_head c r E) as [r' ->]. cbn [Py.lstrip]. now rewrite E.
Qed.

Lemma upper_trimmed (s : string) : trimmed s -> trimmed (Py.upper s).
Proof.
  intros [H1 H2]. unfold trimmed. now rewrite lstrip_upper, rstrip_upper, H1, H2.
Qed.

Lemma upper_nonempty (s : string) : Py.truthy s = true -> Py.upper s <> EmptyString.
Proof. destruct s; [discriminate|]. intros _. discriminate. Qed.

Lemma split_nonempty (sep : ascii) (s : string) : Py.split sep s <> [].
Proof.
  induction s as [|c s IH]; [discriminate|]. cbn [Py.split].
  destruct (Ascii.eqb c sep); [discriminate|]. now destruct (Py.split sep s).
Qed.

Lemma split_app (sep : ascii) (s1 s2 : string) :
  Py.split sep (s1 ++ String sep s2) = Py.split sep s1 ++ Py.split sep s2.
Proof.
  induction s1 as [|c s1 IH].
  - cbn [String.append Py.split]. now rewrite Ascii.eqb_refl.
  - cbn [String.append Py.split]. rewrite IH.
    destruct (Ascii.eqb c sep); [reflexivity|].
    pose proof (split_nonempty sep s1) as Hne.
    now destruct (Py.split sep s1).
Qed.

(** C9 as stated fails: the same symbol typed twice is kept twice. *)
Lemma tickers_keep_duplicates :
  tickers "AAPL, aapl" = ["AAPL"; "AAPL"]%string /\
  ~ NoDup (tickers "AAPL, aapl").
Proof.
  split; [reflexivity|]. intros H. change (NoDup ["AAPL"; "AAPL"]%string) in H.
  inversion H as [|? ? Hnin _]; subst. apply Hnin. now left.
Qed.

(** C9, amended.  The parsed symbols are non-empty, trimmed and upper-cased,
    and they come in input order: the symbols of [s1,s2] are those of [s1]
    followed by those of [s2], and a text without a comma gives its one
    normalised symbol, or none when it is blank.  Repeated symbols are kept
    as often as they were typed. *)
Theorem tickers_normalised (tickers_input : string) :
  (forall t, In t (tickers tickers_input) ->
     t <> EmptyString /\ trimmed t /\ Py.upper t = t) /\
  (forall s1 s2, tickers (s1 ++ String "," s2) = tickers s1 ++ tickers s2) /\
  (Py.split "," tickers_input = [tickers_input] ->
     tickers tickers_input
       = if Py.truthy (Py.strip tickers_input)
         then [Py.upper (Py.strip tickers_input)] else []) /\
  tickers "AAPL, aapl" = ["AAPL"; "AAPL"]%string.
Proof.
  split; [|split; [|split]].
  - intros t Ht. unfold tickers in Ht. apply in_map_iff in Ht.
    destruct Ht as (x & <- & Hx). apply filter_In in Hx. destruct Hx as [_ Hx].
    split; [now apply upper_nonempty|]. split; [|apply upper_idem].
    apply upper_trimmed, strip_trimmed.
  - intros s1 s2. unfold tickers. now rewrite split_app, filter_app, map_app.
  - intros H. unfold tickers. rewrite H. cbn [filter].
    now destruct (Py.truthy (Py.strip tickers_input)).
  - reflexivity.
Qed.

(* ================================================================== *)
(** ** More on the fetch loop *)

Section FetchLoopMore.

Variable v : variant.
Variable p : provider.

Lemma rows_for_tickers (ts : list string) :
  map Ticker (rows_for v p ts) = filter (info_ok p) ts.
Proof.
  induction ts as [|t ts IH]; [reflexivity|].
  cbn [rows_for flat_map filter]. fold (rows_for v p ts). unfold info_ok at 1.
  destruct (info_of p t); cbn [app map make_row Ticker]; now rewrite IH.
Qed.

Lemma errors_for_step (t : string) (rest : list event) :
  errors_for p [t] ++ rest
  = if negb (fully_ok p t) then fetch_error p t :: rest else rest.
Proof.
  unfold errors_for, fully_ok, info_ok, download_ok, fetch_error. cbn [flat_map].
  destruct (info_of p t); [destruct (download p t)|]; reflexivity.
Qed.

Lemma errors_for_failed (ts : list string) :
  errors_for p ts = map (fetch_error p) (filter (fun t => negb (fully_ok p t)) ts).
Proof.
  induction ts as [|t ts IH]; [reflexivity|].
  change (t :: ts) with ([t] ++ ts) at 1. rewrite errors_for_app, errors_for_step, IH.
  cbn [filter]. now destruct (negb (fully_ok p t)).
Qed.

Lemma hist_fold (ts : list string) : forall st,
  hist_data (fold_left (fetch_one v p) ts st)
  = fold_left (fun d t => match download p t with
                          | Ok h => dict_set d t h
                          | Raise _ => d
                          end)
              (filter (info_ok p) ts) (hist_data st).
Proof.
  induction ts as [|t ts IH]; intros st; [reflexivity|].
  cbn [fold_left filter]. rewrite IH. unfold fetch_one.
  destruct (info_ok p t) eqn:Eok; unfold info_ok in Eok;
    destruct (info_of p t); try discriminate Eok; cbn [fold_left];
    [destruct (download p t)|]; reflexivity.
Qed.

End FetchLoopMore.

Section Dict.

Context {V : Type}.

Lemma dict_set_keys (d : list (string * V)) k x :
  map fst (dict_set d k x)
  = if existsb (String.eqb k) (map fst d) then map fst d else map fst d ++ [k].
Proof.
  induction d as [|[k' x'] d IH]; [reflexivity|].
  cbn [dict_set map fst existsb]. destruct (String.eqb k k') eqn:E.
  - apply String.eqb_eq in E. now subst.
  - cbn [map fst orb]. rewrite IH. now destruct (existsb (String.eqb k) (map fst d)).
Qed.

Lemma dict_get_set_same (d : list (string * V)) k x :
  dict_get (dict_set d k x) k = Some x.
Proof.
  unfold dict_get. induction d as [|[k' x'] d IH]; cbn [dict_set find fst].
  - now rewrite String.eqb_refl.
  - destruct (String.eqb k k') eqn:E; cbn [find fst].
    + now rewrite String.eqb_refl.
    + now rewrite E.
Qed.

Lemma dict_get_set_other (d : list (string * V)) k k' x :
  k' <> k -> dict_get (dict_set d k x) k' = dict_get d k'.
Proof.
  intros Hne. unfold dict_get. induction d as [|[k0 x0] d IH]; cbn [dict_set find fst].
  - apply String.eqb_neq in Hne. now rewrite Hne.
  - destruct (String.eqb k k0) eqn:E; cbn [find fst].
    + apply String.eqb_eq in E. subst k0. apply String.eqb_neq in Hne. now rewrite Hne.
    + destruct (String.eqb k' k0); [reflexivity|exact IH].
Qed.

Lemma dict_get_in (d : list (string * V)) k x :
  dict_get d k = Some x -> In (k, x) d.
Proof.
  unfold dict_get. destruct (find _ d) as [[k' x']|] eqn:E; [|discriminate].
  cbn. intros H. injection H as <-. apply find_some in E. destruct E as [Hin Heq].
  cbn in Heq. apply String.eqb_eq in Heq. now subst.
Qed.

Lemma dict_in_get (d : list (string * V)) k x :
  NoDup (map fst d) -> In (k, x) d -> dict_get d k = Some x.
Proof.
  unfold dict_get. induction d as [|[k' x'] d IH]; intros Hnd Hin; [contradiction|].
  cbn [map fst] in Hnd. inversion Hnd as [|? ? Hnin Hnd']; subst.
  cbn [find fst]. destruct Hin as [E|Hin].
  - injection E as -> ->. now rewrite String.eqb_refl.
  - destruct (String.eqb k k') eqn:E.
    + apply String.eqb_eq in E. subst k'. exfalso. apply Hnin.
      now apply (in_map fst) in Hin.
    + now apply IH.
Qed.

End Dict.

Lemma existsb_eqb_in (k : string) (l : list string) :
  existsb (String.eqb k) l = true <-> In k l.
Proof.
  rewrite existsb_exists. split.
  - intros (x & Hx & E). apply String.eqb_eq in E. now subst.
  - intros H. exists k. split; [exact H|apply String.eqb_refl].
Qed.

Lemma dedup_seen_ext (l : list string) : forall s1 s2,
  (forall x, In x s1 <-> In x s2) -> dedup_seen s1 l = dedup_seen s2 l.
Proof.
  induction l as [|x l IH]; intros s1 s2 H; [reflexivity|]. cbn [dedup_seen].
  assert (E : existsb (String.eqb x) s1 = existsb (String.eqb x) s2).
  { apply eq_true_iff_eq. rewrite !existsb_eqb_in. apply H. }
  rewrite E. destruct (existsb (String.eqb x) s2); [now apply IH|].
  f_equal. apply IH. intros y. cbn. now rewrite H.
Qed.

Lemma dedup_seen_spec (l : list string) : forall seen,
  NoDup (dedup_seen seen l) /\
  (forall x, In x (dedup_seen seen l) <-> In x l /\ ~ In x seen).
Proof.
  induction l as [|a l IH]; intros seen; cbn [dedup_seen].
  - split; [constructor|]. intros x. cbn. tauto.
  - destruct (existsb (String.eqb a) seen) eqn:E.
    + destruct (IH seen) as [Hnd Hin]. split; [exact Hnd|].
      apply existsb_eqb_in in E. intros x. rewrite Hin. cbn.
      split; [tauto|]. intros [[<-|Hx] Hns]; tauto.
    + destruct (IH (a :: seen)) as [Hnd Hin].
      assert (Ha : ~ In a seen).
      { intros H. apply existsb_eqb_in in H. congruence. }
      split.
      * constructor; [|exact Hnd]. rewrite Hin. cbn. tauto.
      * intros x. cbn. rewrite Hin. cbn.
        destruct (string_dec a x) as [->|Hne]; tauto.
Qed.

Section HistData.

Variable p : provider.

Lemma hist_step_keys (l : list string) : forall d,
  map fst (fold_left (hist_step p) l d)
  = map fst d ++ dedup_seen (map fst d) (filter (download_ok p) l).
Proof.
  induction l as [|t l IH]; intros d; [now rewrite app_nil_r|].
  cbn [fold_left filter]. rewrite IH.
  assert (Hd' : hist_step p d t = match download p t with
                                | Ok h => dict_set d t h
                                | Raise _ => d
                                end) by reflexivity.
  destruct (download_ok p t) eqn:Eok; unfold download_ok in Eok;
    destruct (download p t) as [h|e]; try discriminate Eok; rewrite Hd';
    [|reflexivity].
  rewrite dict_set_keys. cbn [dedup_seen].
  destruct (existsb (String.eqb t) (map fst d)) eqn:E; [reflexivity|].
  rewrite <- app_assoc. cbn [app]. do 2 f_equal.
  apply dedup_seen_ext. intros x. rewrite in_app_iff. cbn. tauto.
Qed.

Lemma dict_set_in {V : Type} (d : list (string * V)) k x k' x' :
  In (k', x') (dict_set d k x) -> (k', x') = (k, x) \/ In (k', x') d.
Proof.
  induction d as [|[k0 x0] d IH]; cbn [dict_set].
  - intros [E|[]]. now left.
  - destruct (String.eqb k k0); cbn [In]; intros [E|H]; auto.
    destruct (IH H); auto.
Qed.

Lemma hist_step_values (l : list string) : forall d,
  (forall t h, In (t, h) d -> download p t = Ok h) ->
  forall t h, In (t, h) (fold_left (hist_step p) l d) -> download p t = Ok h.
Proof.
  induction l as [|a l IH]; intros d Hd; [exact Hd|].
  cbn [fold_left]. apply IH. unfold hist_step.
  destruct (download p a) as [ha|e] eqn:E; [|exact Hd].
  intros t h Hin. apply dict_set_in in Hin. destruct Hin as [Eq|Hin]; [|now apply Hd].
  injection Eq as -> ->. exact E.
Qed.

Lemma filter_fully_ok (ts : list string) :
  filter (download_ok p) (filter (info_ok p) ts) = filter (fully_ok p) ts.
Proof.
  induction ts as [|t ts IH]; [reflexivity|]. cbn [filter]. unfold fully_ok at 1.
  destruct (info_ok p t); cbn [filter andb]; now rewrite IH.
Qed.

Lemma hist_data_keys_eq (v : variant) (ts : list string) :
  map fst (hist_data (fetch_all v p ts)) = first_occurrences (filter (fully_ok p) ts).
Proof.
  unfold fetch_all. rewrite hist_fold. cbn [hist_data].
  pose proof (hist_step_keys (filter (info_ok p) ts) []) as H.
  unfold hist_step in H. rewrite H. cbn [map app].
  now rewrite filter_fully_ok.
Qed.

Lemma hist_data_values (v : variant) (ts : list string) t h :
  In (t, h) (hist_data (fetch_all v p ts)) -> download p t = Ok h.
Proof.
  unfold fetch_all. rewrite hist_fold. cbn [hist_data].
  apply hist_step_values. intros ? ? [].
Qed.

End HistData.


Lemma filter_nil_existsb {A : Type} (f : A -> bool) (l : list A) :
  filter f l = [] <-> existsb f l = false.
Proof.
  induction l as [|x l IH]; cbn; [tauto|].
  destruct (f x); cbn; [split; discriminate|exact IH].
Qed.

Lemma filter_split_length {A : Type} (f : A -> bool) (l : list A) :
  (List.length (filter (fun x => negb (f x)) l) + List.length (filter f l)
   = List.length l)%nat.
Proof.
  induction l as [|x l IH]; [reflexivity|]. cbn [filter].
  destruct (f x); cbn [negb List.length]; lia.
Qed.

Lemma data_nil_iff (v : variant) (p : provider) (ts : list string) :
  data (fetch_all v p ts) = [] <-> existsb (info_ok p) ts = false.
Proof.
  rewrite <- filter_nil_existsb, <- rows_for_tickers with (v := v), fetch_all_data.
  split; [now intros ->|]. now destruct (rows_for v p ts).
Qed.

Lemma hist_nil_iff (v : variant) (p : provider) (ts : list string) :
  hist_data (fetch_all v p ts) = [] <-> existsb (fully_ok p) ts = false.
Proof.
  rewrite <- filter_nil_existsb.
  pose proof (hist_data_keys_eq p v ts) as H. unfold first_occurrences in H.
  split.
  - intros E. rewrite E in H. destruct (filter (fully_ok p) ts); [reflexivity|discriminate].
  - intros E. rewrite E in H. now destruct (hist_data (fetch_all v p ts)).
Qed.

(** X1.  Whatever fails, the metrics table lists, in input order, exactly the
    requested entries whose snapshot was read, each with the row of its own
    snapshot; it never has more rows than requested entries. *)
Theorem table_lists_fetched_symbols (v : variant) (p : provider) (ts : list string) :
  let f := fetch_all v p ts in
  map Ticker (data f) = filter (info_ok p) ts /\
  (forall row, In row (data f) ->
     exists info, info_of p (Ticker row) = Ok info /\
                  row = make_row v (Ticker row) info) /\
  (List.length (data f) <= List.length ts)%nat.
Proof.
  intros f. subst f. rewrite fetch_all_data.
  split; [apply rows_for_tickers|]. split.
  - intros row Hrow. exact (proj2 (rows_for_in v p ts row Hrow)).
  - rewrite <- (length_map Ticker), rows_for_tickers. apply filter_length_le.
Qed.

(** X2.  The fetch loop reports exactly one error for every requested entry
    whose snapshot or price download raised, in input order, carrying that
    exception's message, and none for the others: errors and fully fetched
    entries together account for every requested entry. *)
Theorem errors_one_per_failed_entry (v : variant) (p : provider) (ts : list string) :
  let f := fetch_all v p ts in
  errors f = map (fetch_error p) (filter (fun t => negb (fully_ok p t)) ts) /\
  (List.length (errors f) + List.length (filter (fully_ok p) ts)
   = List.length ts)%nat.
Proof.
  intros f. subst f. rewrite fetch_all_errors, errors_for_failed.
  split; [reflexivity|]. rewrite length_map. apply filter_split_length.
Qed.

(** X3.  A symbol whose snapshot is read but whose price download raises
    keeps its row in the metrics table (the row is appended before the
    download); the download's error is reported for it, and it gets no column
    in the heat map data. *)
Theorem download_failure_keeps_row (v : variant) (p : provider) (ts : list string)
  (t e : string) (info : InfoRecord) :
  In t ts -> info_of p t = Ok info -> download p t = Raise e ->
  let f := fetch_all v p ts in
  In (make_row v t info) (data f) /\
  In (StError t e) (errors f) /\
  ~ In t (map fst (hist_data f)).
Proof.
  intros Ht Hinfo Hdl f. subst f.
  assert (Hrow : In (make_row v t info) (data (fetch_all v p ts))).
  { rewrite fetch_all_data. unfold rows_for. apply in_flat_map.
    exists t. split; [exact Ht|]. rewrite Hinfo. now left. }
  split; [exact Hrow|]. split.
  - rewrite fetch_all_errors. unfold errors_for. apply in_flat_map.
    exists t. split; [exact Ht|]. rewrite Hinfo, Hdl. now left.
  - intros Hin. apply in_map_iff in Hin. destruct Hin as ([t' h] & E & Hin).
    cbn in E. subst t'. apply hist_data_values in Hin. congruence.
Qed.

Lemma download_failure_keeps_row_witness :
  In (make_row Csv "B" sample_info) (data (fetch_all Csv flaky_provider ["A"; "B"]%string)) /\
  In (StError "B" "timeout") (errors (fetch_all Csv flaky_provider ["A"; "B"]%string)).
Proof.
  assert (Ht : In "B"%string ["A"; "B"]%string) by (right; now left).
  destruct (download_failure_keeps_row Csv flaky_provider ["A"; "B"]%string
              "B" "timeout" sample_info Ht eq_refl eq_refl) as (H1 & H2 & _).
  split; [exact H1|exact H2].
Defined.

(** X4.  The heat map data has one column per distinct symbol whose snapshot
    and download both succeeded, in the order those symbols were first
    typed, however often a symbol is repeated; each column holds that
    symbol's downloaded history, and the return matrix keeps these columns. *)
Theorem heatmap_columns (v : variant) (p : provider) (ts : list string) :
  let hist := hist_data (fetch_all v p ts) in
  map fst hist = first_occurrences (filter (fully_ok p) ts) /\
  NoDup (map fst hist) /\
  (forall t, In t (map fst hist) <-> In t ts /\ fully_ok p t = true) /\
  (forall t h, dict_get hist t = Some h -> download p t = Ok h) /\
  columns (returns hist) = map fst hist.
Proof.
  intros hist. subst hist. rewrite hist_data_keys_eq. unfold first_occurrences.
  destruct (dedup_seen_spec (filter (fully_ok p) ts) []) as [Hnd Hin].
  split; [reflexivity|]. split; [exact Hnd|]. split; [|split].
  - intros t. rewrite Hin, filter_In. cbn. tauto.
  - intros t h Hget. apply dict_get_in in Hget. now apply hist_data_values in Hget.
  - cbn. now rewrite hist_data_keys_eq.
Qed.



(* ================================================================== *)
(** ** More on the symbol list *)

Lemma lstrip_all_space (s : string) :
  all_chars Py.is_space (Py.lstrip s) = all_chars Py.is_space s.
Proof.
  induction s as [|c s IH]; [reflexivity|]. cbn [Py.lstrip all_chars].
  destruct (Py.is_space c) eqn:E; [exact IH|]. cbn [all_chars]. now rewrite E.
Qed.

Lemma rstrip_empty_iff (s : string) :
  Py.rstrip s = EmptyString <-> all_chars Py.is_space s = true.
Proof.
  induction s as [|c s IH]; [cbn; tauto|]. cbn [Py.rstrip all_chars].
  destruct (Py.rstrip s) as [|c' r].
  - destruct (Py.is_space c); cbn [andb].
    + split; intros _; [now apply IH|reflexivity].
    + split; discriminate.
  - split; [discriminate|]. intros H. apply andb_true_iff in H.
    destruct H as [_ H]. apply IH in H. discriminate.
Qed.

Lemma strip_truthy (s : string) :
  Py.truthy (Py.strip s) = negb (all_chars Py.is_space s).
Proof.
  unfold Py.strip. rewrite <- lstrip_all_space.
  destruct (Py.rstrip (Py.lstrip s)) eqn:E.
  - apply rstrip_empty_iff in E. now rewrite E.
  - cbn. destruct (all_chars Py.is_space (Py.lstrip s)) eqn:F; [|reflexivity].
    apply rstrip_empty_iff in F. congruence.
Qed.

Lemma split_all_blank (s : string) :
  forallb (all_chars Py.is_space) (Py.split "," s) = all_chars blank_or_comma s.
Proof.
  induction s as [|c s IH]; [reflexivity|]. cbn [Py.split all_chars].
  unfold blank_or_comma at 1. destruct (Ascii.eqb c ",") eqn:E.
  - cbn [forallb all_chars]. rewrite IH, orb_true_r. reflexivity.
  - rewrite orb_false_r, <- IH.
    pose proof (split_nonempty "," s) as Hne.
    destruct (Py.split "," s) as [|q qs]; [congruence|].
    cbn [forallb all_chars]. now rewrite andb_assoc.
Qed.

Lemma tickers_nil_iff (s : string) :
  tickers s = [] <-> all_chars blank_or_comma s = true.
Proof.
  rewrite <- split_all_blank. unfold tickers.
  induction (Py.split "," s) as [|q qs IH]; [cbn; tauto|].
  cbn [filter forallb]. rewrite strip_truthy.
  destruct (all_chars Py.is_space q); cbn [negb andb map].
  - exact IH.
  - split; discriminate.
Qed.

(** X9.  The parser returns no symbol exactly when the input holds nothing but
    white space and commas (the empty input included), and then pressing the
    button shows nothing at all: no error, no table, no chart. *)
Theorem blank_input_shows_nothing (v : variant) (p : provider) (tickers_input : string) :
  (tickers tickers_input = [] <-> all_chars blank_or_comma tickers_input = true) /\
  (all_chars blank_or_comma tickers_input = true -> run v p tickers_input = []).
Proof.
  split; [apply tickers_nil_iff|]. intros H. apply tickers_nil_iff in H.
  unfold run. now rewrite H.
Qed.

Lemma split_no_sep (sep : ascii) (s : string) :
  contains sep s = false -> Py.split sep s = [s].
Proof.
  induction s as [|c s IH]; [reflexivity|]. cbn [contains Py.split].
  intros H. apply orb_false_iff in H. destruct H as [E H].
  rewrite E, (IH H). reflexivity.
Qed.

Lemma split_pieces_no_sep (sep : ascii) (s : string) :
  Forall (fun q => contains sep q = false) (Py.split sep s).
Proof.
  induction s as [|c s IH]; [now repeat constructor|]. cbn [Py.split].
  destruct (Ascii.eqb c sep) eqn:E; [now constructor|].
  pose proof (split_nonempty sep s) as Hne.
  destruct (Py.split sep s) as [|q qs]; [congruence|].
  inversion IH as [|? ? Hq Hqs]; subst. constructor; [|exact Hqs].
  cbn [contains]. now rewrite E, Hq.
Qed.

Lemma lstrip_contains (c : ascii) (s : string) :
  contains c s = false -> contains c (Py.lstrip s) = false.
Proof.
  induction s as [|a s IH]; [reflexivity|]. cbn [contains Py.lstrip]. intros H.
  apply orb_false_iff in H. destruct H as [E H].
  destruct (Py.is_space a); [now apply IH|]. cbn [contains]. now rewrite E, H.
Qed.

Lemma rstrip_contains (c : ascii) (s : string) :
  contains c s = false -> contains c (Py.rstrip s) = false.
Proof.
  induction s as [|a s IH]; [reflexivity|]. cbn [contains Py.rstrip]. intros H.
  apply orb_false_iff in H. destruct H as [E H]. specialize (IH H).
  destruct (Py.rstrip s); [destruct (Py.is_space a)|]; cbn [contains] in *;
    rewrite ?E, ?IH; reflexivity.
Qed.

Lemma upper_char_comma (c : ascii) :
  Ascii.eqb (Py.upper_char c) "," = Ascii.eqb c ",".
Proof. destruct c as [[] [] [] [] [] [] [] []]; reflexivity. Qed.

Lemma upper_contains_comma (s : string) :
  contains "," (Py.upper s) = contains "," s.
Proof.
  induction s as [|a s IH]; [reflexivity|]. cbn [Py.upper contains].
  now rewrite upper_char_comma, IH.
Qed.

Lemma tickers_are_normalised (s : string) (t : string) :
  In t (tickers s) -> normalised t.
Proof.
  unfold tickers. intros Ht. apply in_map_iff in Ht.
  destruct Ht as (q & <- & Hq). apply filter_In in Hq. destruct Hq as [Hq Htr].
  split; [now apply upper_nonempty|]. split; [apply upper_trimmed, strip_trimmed|].
  split; [apply upper_idem|]. rewrite upper_contains_comma.
  unfold Py.strip. apply rstrip_contains, lstrip_contains.
  pose proof (split_pieces_no_sep "," s) as H. rewrite Forall_forall in H. now apply H.
Qed.

Lemma tickers_of_normalised (t : string) : normalised t -> tickers t = [t].
Proof.
  intros (Hne & [Hl Hr] & Hu & Hc). unfold tickers.
  rewrite (split_no_sep "," t Hc). cbn [filter].
  assert (Hs : Py.strip t = t) by (unfold Py.strip; now rewrite Hl, Hr).
  rewrite Hs. destruct t; [congruence|]. cbn [Py.truthy map]. now rewrite Hs, Hu.
Qed.

Lemma tickers_app (s1 s2 : string) :
  tickers (s1 ++ String "," s2) = tickers s1 ++ tickers s2.
Proof. unfold tickers. now rewrite split_app, filter_app, map_app. Qed.

Lemma tickers_join (l : list string) :
  Forall normalised l -> tickers (join "," l) = l.
Proof.
  induction 1 as [|x l Hx Hl IH]; [reflexivity|]. cbn [join].
  destruct l as [|y l]; [now apply tickers_of_normalised|].
  rewrite tickers_app, IH, (tickers_of_normalised x Hx). reflexivity.
Qed.

(** X10.  Parsing is stable: symbols that are already normalised (non-empty,
    trimmed, upper-case, without a comma), joined by commas, parse back to
    themselves; so re-entering the parsed list gives the same list. *)
Theorem tickers_round_trip :
  (forall l, Forall normalised l -> tickers (join "," l) = l) /\
  (forall tickers_input,
     tickers (join "," (tickers tickers_input)) = tickers tickers_input).
Proof.
  split; [exact tickers_join|]. intros s. apply tickers_join.
  apply Forall_forall. intros t Ht. exact (tickers_are_normalised s t Ht).
Qed.

(* ================================================================== *)
(** ** More on the indicators *)

Lemma removelast_cons_length {A : Type} (x : A) (l : list A) :
  List.length (removelast (x :: l)) = List.length l.
Proof.
  revert x; induction l as [|y l IH]; intros x; [reflexivity|].
  change (removelast (x :: y :: l)) with (x :: removelast (y :: l)).
  cbn [List.length]. now rewrite IH.
Qed.

Lemma shift_length (xs : Series) : List.length (shift xs) = List.length xs.
Proof.
  destruct xs as [|x xs]; [reflexivity|]. unfold shift.
  cbn [List.length]. now rewrite removelast_cons_length.
Qed.

Lemma diff_length (xs : Series) : List.length (diff xs) = List.length xs.
Proof. unfold diff. rewrite zip_with_length, shift_length. lia. Qed.

Lemma ewm_loop_length alpha adjust ignore_na minp (rest : Series) :
  forall st, List.length (ewm_loop alpha adjust ignore_na minp rest st) = List.length rest.
Proof. induction rest as [|x rest IH]; intros st; cbn; [reflexivity|now rewrite IH]. Qed.

Lemma ewm_mean_length span adjust (xs : Series) :
  List.length (ewm_mean span adjust xs) = List.length xs.
Proof.
  unfold ewm_mean, ewm. destruct xs as [|x xs]; [reflexivity|].
  cbn [List.length]. now rewrite ewm_loop_length.
Qed.

Lemma closes_length (h : PriceSeries) : List.length (closes h) = List.length h.
Proof. apply length_map. Qed.

Lemma gain_length (close : Series) : List.length (gain close) = List.length close.
Proof.
  unfold gain, gain_raw, where_, gt_scalar, delta.
  rewrite rolling_mean_length, zip_with_length, length_map, diff_length. lia.
Qed.

Lemma loss_length (close : Series) : List.length (loss close) = List.length close.
Proof.
  unfold loss, loss_raw, neg_series, where_, lt_scalar, delta.
  rewrite rolling_mean_length, length_map, zip_with_length, length_map, diff_length. lia.
Qed.

Lemma MACD_length (close : Series) : List.length (MACD close) = List.length close.
Proof. unfold MACD, exp1, exp2. rewrite zip_with_length, !ewm_mean_length. lia. Qed.

(** X11.  Every series a chart plots has one value per day of the price
    history it was computed from: the indicators stay aligned with the
    closes, whatever the length of the history (also for an empty one). *)
Theorem indicators_aligned (v : variant) (h : PriceSeries) :
  Forall (fun line => List.length (snd line) = List.length h) (chart_lines v h).
Proof.
  pose proof (closes_length h) as Hc.
  destruct v; cbn [chart_lines]; repeat constructor; cbn [snd]; unfold SMA, RSI, rs, Signal;
    rewrite ?zip_with_length, ?length_map, ?zip_with_length, ?ewm_mean_length,
      ?MACD_length, ?rolling_mean_length, ?gain_length, ?loss_length; lia.
Qed.

(** X12.  On the first day of any non-empty history both exponential means
    equal the first close, so MACD, the signal line and their difference all
    start at 0; the RSI has no value there. *)
Theorem first_day_values (e : Z * Q) (rest : PriceSeries) :
  let close := closes (e :: rest) in
  nth 0 (exp1 close) NaN = Fin (snd e) /\
  nth 0 (exp2 close) NaN = Fin (snd e) /\
  feq (nth 0 (MACD close) NaN) (Fin 0) /\
  feq (nth 0 (Signal close) NaN) (Fin 0) /\
  feq (nth 0 (zip_with sub (MACD close) (Signal close)) NaN) (Fin 0) /\
  nth 0 (RSI close) NaN = NaN.
Proof.
  intros close. subst close.
  assert (Hm : MACD (closes (e :: rest))
               = Fin (snd e + - snd e)
                 :: List.tl (MACD (closes (e :: rest)))) by reflexivity.
  assert (Hs : Signal (closes (e :: rest))
               = Fin (snd e + - snd e)
                 :: List.tl (Signal (closes (e :: rest)))).
  { unfold Signal. rewrite Hm. reflexivity. }
  split; [reflexivity|]. split; [reflexivity|].
  rewrite Hs, Hm. cbn [zip_with nth sub neg add feq].
  split; [ring|]. split; [ring|]. split; [ring|].
  assert (Hi : (0 < List.length (e :: rest))%nat) by (cbn; lia).
  rewrite (RSI_nth (e :: rest) 0 Hi).
  destruct (average_gain_loss_at (e :: rest) 0 Hi) as [Hb _].
  destruct Hb as [-> _]; [lia|]. reflexivity.
Qed.

Lemma span_factor_range (span : Q) :
  1 <= span -> 0 <= 2 / (span + 1) /\ 2 / (span + 1) <= 1.
Proof.
  intros H. split.
  - apply Qle_shift_div_l; lra.
  - apply Qle_shift_div_r; lra.
Qed.

Lemma convex_step (k lo hi c prev e : Q) :
  0 <= k -> k <= 1 -> lo <= c -> c <= hi -> lo <= prev -> prev <= hi ->
  e == c * k + prev * (1 - k) -> lo <= e /\ e <= hi.
Proof.
  intros Hk0 Hk1 Hc1 Hc2 Hp1 Hp2 ->. split; nra.
Qed.

Lemma ema_follows_range (k lo hi : Q) (cs : list Q) :
  0 <= k -> k <= 1 ->
  forall prev es,
    lo <= prev -> prev <= hi ->
    Forall (fun c => lo <= c /\ c <= hi) cs ->
    ema_follows k prev cs es ->
    Forall (fun e => lo <= e /\ e <= hi) es.
Proof.
  intros Hk0 Hk1. induction cs as [|c cs IH]; intros prev [|e es] Hp1 Hp2 Hcs Hf;
    cbn in Hf; try contradiction; [constructor|].
  inversion Hcs as [|? ? [Hc1 Hc2] Hcs']; subst. destruct Hf as [He Hf].
  destruct (convex_step k lo hi c prev e Hk0 Hk1 Hc1 Hc2 Hp1 Hp2 He) as [He1 He2].
  constructor; [split; assumption|]. now apply (IH e).
Qed.

Lemma ewm_mean_follows (span : Q) (c0 : Q) (cs : list Q) :
  1 <= span ->
  exists es,
    ewm_mean span false (map Fin (c0 :: cs)) = map Fin (c0 :: es) /\
    ema_follows (2 / (span + 1)) c0 cs es.
Proof.
  intros Hspan. unfold ewm_mean, ewm. cbn [map notna isnan negb].
  destruct (ewm_loop_finite (1 / (1 + get_center_of_mass span)) cs c0 1%nat)
    as (es & Hes & Hfol); [lia|].
  apply (ema_follows_proper _ _ cs (alpha_of_span span Hspan)) in Hfol.
  exists es. split; [now rewrite Hes|exact Hfol].
Qed.

Lemma ewm_mean_range (span lo hi : Q) (cs : list Q) :
  1 <= span ->
  Forall (fun c => lo <= c /\ c <= hi) cs ->
  exists es, ewm_mean span false (map Fin cs) = map Fin es /\
             List.length es = List.length cs /\
             Forall (fun e => lo <= e /\ e <= hi) es.
Proof.
  intros Hspan Hcs. destruct cs as [|c0 cs].
  - exists []. repeat split; constructor.
  - destruct (ewm_mean_follows span c0 cs Hspan) as (es & Hes & Hf).
    inversion Hcs as [|? ? [H1 H2] Hcs']; subst.
    destruct (span_factor_range span Hspan) as [Hk0 Hk1].
    exists (c0 :: es). split; [exact Hes|]. split.
    + cbn. f_equal. exact (ema_follows_length _ _ _ _ Hf).
    + constructor; [split; assumption|].
      exact (ema_follows_range _ lo hi cs Hk0 Hk1 c0 es H1 H2 Hcs' Hf).
Qed.

Lemma Forall_nth_Q (P : Q -> Prop) (l : list Q) (i : nat) :
  Forall P l -> (i < List.length l)%nat -> P (nth i l 0).
Proof.
  intros H Hi. rewrite Forall_forall in H. apply H. now apply nth_In.
Qed.

Lemma within_close_prices (lo hi : Q) (h : PriceSeries) :
  Forall (within lo hi) (closes h) ->
  Forall (fun c => lo <= c /\ c <= hi) (close_prices h).
Proof.
  unfold closes, close_prices. rewrite !Forall_map. apply Forall_impl.
  intros a H. exact H.
Qed.

(** X13.  With spans of at least 1 an exponential mean never leaves the range
    of its input: when every close lies between [lo] and [hi], so do both
    exponential means at every day, and MACD and its signal line stay within
    [hi - lo] of 0. *)
Theorem macd_within_price_range (h : PriceSeries) (lo hi : Q) (i : nat) :
  Forall (within lo hi) (closes h) ->
  (i < List.length h)%nat ->
  let close := closes h in
  within lo hi (nth i (exp1 close) NaN) /\
  within lo hi (nth i (exp2 close) NaN) /\
  within (- (hi - lo)) (hi - lo) (nth i (MACD close) NaN) /\
  within (- (hi - lo)) (hi - lo) (nth i (Signal close) NaN).
Proof.
  intros Hw Hi close. subst close. apply within_close_prices in Hw.
  unfold Signal, MACD, exp1, exp2. rewrite closes_map.
  pose proof (close_prices_length h) as HL.
  destruct (ewm_mean_range 12 lo hi (close_prices h)) as (e12 & -> & L12 & R12);
    [lra|exact Hw|].
  destruct (ewm_mean_range 26 lo hi (close_prices h)) as (e26 & -> & L26 & R26);
    [lra|exact Hw|].
  rewrite zip_sub_finite.
  assert (Lm : List.length (zip_with Qminus e12 e26) = List.length h).
  { rewrite zip_with_length. lia. }
  assert (Rm : Forall (fun m => - (hi - lo) <= m /\ m <= hi - lo)
                      (zip_with Qminus e12 e26)).
  { clear -R12 R26. revert e26 R26.
    induction R12 as [|a l [Ha1 Ha2] _ IH]; intros [|b e26] R26; cbn;
      try constructor.
    - inversion R26 as [|? ? [Hb1 Hb2] _]; subst. split; lra.
    - inversion R26; subst. now apply IH. }
  destruct (ewm_mean_range 9 (- (hi - lo)) (hi - lo) (zip_with Qminus e12 e26))
    as (sig & -> & Ls & Rs); [lra|exact Rm|].
  rewrite !map_Fin_nth by lia. cbn [within].
  repeat split;
    first [ apply (Forall_nth_Q _ _ i R12); lia
          | apply (Forall_nth_Q _ _ i R26); lia
          | apply (Forall_nth_Q _ _ i Rm); lia
          | apply (Forall_nth_Q _ _ i Rs); lia ].
Qed.

Lemma macd_within_price_range_witness :
  within 10 24 (nth 7 (exp1 (closes rising_history)) NaN).
Proof.
  assert (Hw : Forall (within 10 24) (closes rising_history)).
  { cbn. repeat constructor; cbv; discriminate. }
  assert (Hi : (7 < List.length rising_history)%nat) by (cbn; lia).
  exact (proj1 (macd_within_price_range rising_history 10 24 7 Hw Hi)).
Defined.

Lemma inject_length_succ {A : Type} (x : A) (l : list A) :
  inject_Z (Z.of_nat (List.length (x :: l))) == 1 + inject_Z (Z.of_nat (List.length l)).
Proof.
  cbn [List.length]. rewrite Nat2Z.inj_succ, <- Z.add_1_l, inject_Z_plus. reflexivity.
Qed.

Lemma sumQ_range (lo hi : Q) (l : list Q) :
  Forall (fun c => lo <= c /\ c <= hi) l ->
  lo * inject_Z (Z.of_nat (List.length l)) <= sumQ l /\
  sumQ l <= hi * inject_Z (Z.of_nat (List.length l)).
Proof.
  induction 1 as [|c l [H1 H2] _ [IH1 IH2]].
  - cbn. split; ring_simplify; apply Qle_refl.
  - rewrite inject_length_succ. unfold sumQ in *. cbn [fold_right]. split; lra.
Qed.

Lemma arith_mean_range (lo hi : Q) (l : list Q) :
  l <> [] -> Forall (fun c => lo <= c /\ c <= hi) l ->
  lo <= arith_mean l /\ arith_mean l <= hi.
Proof.
  intros Hne H. destruct (sumQ_range lo hi l H) as [H1 H2]. unfold arith_mean.
  assert (Hn : 0 < inject_Z (Z.of_nat (List.length l))).
  { change 0 with (inject_Z 0). rewrite <- Zlt_Qlt. destruct l; [congruence|cbn; lia]. }
  split.
  - apply Qle_shift_div_l; assumption.
  - apply Qle_shift_div_r; assumption.
Qed.

Lemma window_nonempty (n i : nat) (cs : list Q) :
  (1 <= n)%nat -> (n <= S i)%nat -> (i < List.length cs)%nat -> window n i cs <> [].
Proof.
  intros H1 H2 H3 E. apply (f_equal (@List.length Q)) in E.
  rewrite window_length in E by lia. cbn in E. lia.
Qed.

(** X14.  A simple moving average never leaves the range of the closes: when
    every close lies between [lo] and [hi], every available value of the
    [n]-day average does too. *)
Theorem sma_within_price_range (n : nat) (h : PriceSeries) (lo hi : Q) (i : nat) :
  (1 <= n)%nat ->
  Forall (within lo hi) (closes h) ->
  (n - 1 <= i)%nat -> (i < List.length h)%nat ->
  within lo hi (nth i (SMA n (closes h)) NaN).
Proof.
  intros Hn Hw Hge Hi. apply within_close_prices in Hw.
  pose proof (close_prices_length h) as HL.
  unfold SMA. rewrite closes_map.
  destruct (rolling_mean_after n (close_prices h) i) as (m & -> & Hm); try lia.
  cbn [within]. rewrite Hm. apply arith_mean_range.
  - apply window_nonempty; lia.
  - now apply Forall_window.
Qed.

Lemma sma_within_price_range_witness :
  within 10 24 (nth 5 (SMA 3 (closes rising_history)) NaN).
Proof.
  assert (Hw : Forall (within 10 24) (closes rising_history)).
  { cbn. repeat constructor; cbv; discriminate. }
  apply (sma_within_price_range 3 rising_history 10 24 5); [lia|exact Hw|lia|cbn; lia].
Defined.

Lemma within_point (c : Q) (x : float) : within c c x -> feq x (Fin c).
Proof. destruct x; cbn; try contradiction. intros [H1 H2]. lra. Qed.

Lemma within_zero (c : Q) (x : float) : within (- (c - c)) (c - c) x -> feq x (Fin 0).
Proof. destruct x; cbn; try contradiction. intros [H1 H2]. lra. Qed.

Lemma rsi_of_zero_gain (ag al : Q) :
  ag == 0 -> 0 < al -> feq (rsi_of_rs (div (Fin ag) (Fin al))) (Fin 0).
Proof.
  intros Hag Hal. unfold rsi_of_rs. cbn [div].
  destruct (Qeq_bool al 0) eqn:E.
  { apply Qeq_bool_iff in E. lra. }
  cbn [add div].
  assert (Hr : ag / al == 0) by (rewrite Hag; field; lra).
  destruct (Qeq_bool (1 + ag / al) 0) eqn:E1.
  { apply Qeq_bool_iff in E1. lra. }
  cbn [sub neg add feq]. rewrite Hr. field.
Qed.

Lemma sumQ_ge_member (l : list Q) (x : Q) :
  Forall (fun q => 0 <= q) l -> In x l -> x <= sumQ l.
Proof.
  induction 1 as [|a l Ha Hl IH]; intros Hin; [contradiction|].
  unfold sumQ in *. cbn [fold_right]. pose proof (sumQ_nonneg l Hl) as Hs.
  unfold sumQ in Hs. destruct Hin as [->|Hin]; [lra|]. specialize (IH Hin). lra.
Qed.

Lemma arith_mean_positive (l : list Q) (x : Q) :
  Forall (fun q => 0 <= q) l -> In x l -> 0 < x -> 0 < arith_mean l.
Proof.
  intros Hl Hin Hx. unfold arith_mean.
  assert (Hn : 0 < inject_Z (Z.of_nat (List.length l))).
  { change 0 with (inject_Z 0). rewrite <- Zlt_Qlt. destruct l; [contradiction|cbn; lia]. }
  apply Qlt_shift_div_l; [exact Hn|]. pose proof (sumQ_ge_member l x Hl Hin). lra.
Qed.

Lemma window_last (n i : nat) (cs : list Q) :
  (1 <= n)%nat -> (n <= S i)%nat -> (i < List.length cs)%nat ->
  In (nth i cs 0) (window n i cs).
Proof.
  intros H1 H2 H3.
  replace (nth i cs 0) with (nth (n - 1) (window n i cs) 0).
  - apply nth_In. rewrite window_length by lia. lia.
  - rewrite window_nth by lia. f_equal. lia.
Qed.

Lemma rising_deltas (cs : list Q) : forall c0,
  rising_from c0 cs = true -> Forall (fun d => 0 < d) (deltas_from c0 cs).
Proof.
  induction cs as [|c cs IH]; intros c0 H; [constructor|]. cbn in *.
  destruct (Qcompare_spec c0 c) as [E|L|G]; try discriminate.
  constructor; [lra|now apply IH].
Qed.

Lemma falling_deltas (cs : list Q) : forall c0,
  falling_from c0 cs = true -> Forall (fun d => d < 0) (deltas_from c0 cs).
Proof.
  induction cs as [|c cs IH]; intros c0 H; [constructor|]. cbn in *.
  destruct (Qcompare_spec c0 c) as [E|L|G]; try discriminate.
  constructor; [lra|now apply IH].
Qed.

Lemma pos_part_cases (d : Q) :
  (0 < d -> pos_part d == d) /\ (d <= 0 -> pos_part d == 0).
Proof.
  rewrite pos_part_max. split; intros H.
  - apply Q.max_l. lra.
  - apply Q.max_r. exact H.
Qed.

Lemma neg_part_cases (d : Q) :
  (d < 0 -> neg_part d == - d) /\ (0 <= d -> neg_part d == 0).
Proof.
  rewrite neg_part_max. split; intros H.
  - apply Q.max_l. lra.
  - apply Q.max_r. lra.
Qed.

(** The gains and losses of a history whose day-over-day changes all satisfy
    a sign condition. *)
Lemma gains_losses_by_sign (cs : list Q) (i : nat) :
  (1 <= i)%nat -> (i < List.length cs)%nat ->
  (strictly_rising cs = true ->
     Forall (fun q => 0 <= q /\ q <= 0) (lossesQ cs) /\ 0 < nth i (gainsQ cs) 0) /\
  (strictly_falling cs = true ->
     Forall (fun q => 0 <= q /\ q <= 0) (gainsQ cs) /\ 0 < nth i (lossesQ cs) 0).
Proof.
  intros H1 Hi. destruct cs as [|c0 cs]; [cbn in Hi; lia|]. cbn in Hi.
  destruct i as [|i]; [lia|]. cbn [strictly_rising strictly_falling gainsQ lossesQ nth].
  split; intros H.
  - apply rising_deltas in H. split.
    + constructor; [lra|]. rewrite Forall_map. revert H. apply Forall_impl.
      intros d Hd. destruct (neg_part_cases d) as [_ Hz]. rewrite Hz by lra. lra.
    + rewrite (nth_indep _ 0 (pos_part 0))
        by (rewrite length_map, deltas_from_length; lia).
      rewrite map_nth.
      assert (Hd : 0 < nth i (deltas_from c0 cs) 0).
      { rewrite Forall_forall in H. apply H. apply nth_In.
        rewrite deltas_from_length. lia. }
      destruct (pos_part_cases (nth i (deltas_from c0 cs) 0)) as [Hp _].
      rewrite Hp by exact Hd. exact Hd.
  - apply falling_deltas in H. split.
    + constructor; [lra|]. rewrite Forall_map. revert H. apply Forall_impl.
      intros d Hd. destruct (pos_part_cases d) as [_ Hz]. rewrite Hz by lra. lra.
    + rewrite (nth_indep _ 0 (neg_part 0))
        by (rewrite length_map, deltas_from_length; lia).
      rewrite map_nth.
      assert (Hd : nth i (deltas_from c0 cs) 0 < 0).
      { rewrite Forall_forall in H. apply H. apply nth_In.
        rewrite deltas_from_length. lia. }
      destruct (neg_part_cases (nth i (deltas_from c0 cs) 0)) as [Hp _].
      rewrite Hp by exact Hd. lra.
Qed.

Lemma RSI_from_columns (h : PriceSeries) (i : nat) :
  (13 <= i)%nat -> (i < List.length h)%nat ->
  exists ag al,
    nth i (RSI (closes h)) NaN = rsi_of_rs (div (Fin ag) (Fin al)) /\
    ag == arith_mean (window 14 i (gainsQ (close_prices h))) /\
    al == arith_mean (window 14 i (lossesQ (close_prices h))).
Proof.
  intros H13 Hi. rewrite (RSI_nth h i Hi). unfold gain, loss.
  rewrite closes_map, gain_raw_map, loss_raw_map.
  pose proof (close_prices_length h) as HL.
  destruct (rolling_mean_after 14 (gainsQ (close_prices h)) i) as (ag & -> & Eag);
    try (rewrite ?gainsQ_length; lia).
  destruct (rolling_mean_after 14 (lossesQ (close_prices h)) i) as (al & -> & Eal);
    try (rewrite ?lossesQ_length; lia).
  now exists ag, al.
Qed.

(** X15.  From day 14 on (position 13), the RSI of a history in which every
    close is above the previous one is 100, and the RSI of a history in which
    every close is below the previous one is 0. *)
Theorem rsi_extremes (h : PriceSeries) (i : nat) :
  (13 <= i)%nat -> (i < List.length h)%nat ->
  (strictly_rising (close_prices h) = true ->
     feq (nth i (RSI (closes h)) NaN) (Fin 100)) /\
  (strictly_falling (close_prices h) = true ->
     feq (nth i (RSI (closes h)) NaN) (Fin 0)).
Proof.
  intros H13 Hi. pose proof (close_prices_length h) as HL.
  destruct (RSI_from_columns h i H13 Hi) as (ag & al & -> & Eag & Eal).
  destruct (gains_losses_by_sign (close_prices h) i) as [Hr Hf]; try lia.
  pose proof (gainsQ_length (close_prices h)) as Lg.
  pose proof (lossesQ_length (close_prices h)) as Ll.
  split; intros H.
  - destruct (Hr H) as [Hz Hpos]. apply rsi_of_zero_loss_gain.
    + destruct (arith_mean_range 0 0 (window 14 i (lossesQ (close_prices h)))).
      * apply window_nonempty; lia.
      * now apply Forall_window.
      * lra.
    + rewrite Eag. apply (arith_mean_positive _ (nth i (gainsQ (close_prices h)) 0)).
      * apply Forall_window, gainsQ_nonneg.
      * apply window_last; lia.
      * exact Hpos.
  - destruct (Hf H) as [Hz Hpos]. apply rsi_of_zero_gain.
    + destruct (arith_mean_range 0 0 (window 14 i (gainsQ (close_prices h)))).
      * apply window_nonempty; lia.
      * now apply Forall_window.
      * lra.
    + rewrite Eal. apply (arith_mean_positive _ (nth i (lossesQ (close_prices h)) 0)).
      * apply Forall_window, lossesQ_nonneg.
      * apply window_last; lia.
      * exact Hpos.
Qed.

Lemma rsi_extremes_witness :
  feq (nth 14 (RSI (closes rising_history)) NaN) (Fin 100) /\
  feq (nth 14 (RSI (closes falling_history)) NaN) (Fin 0).
Proof.
  assert (H13 : (13 <= 14)%nat) by lia.
  assert (Hr : (14 < List.length rising_history)%nat) by (cbn; lia).
  assert (Hf : (14 < List.length falling_history)%nat) by (cbn; lia).
  split.
  - apply (proj1 (rsi_extremes rising_history 14 H13 Hr)). vm_compute. reflexivity.
  - apply (proj2 (rsi_extremes falling_history 14 H13 Hf)). vm_compute. reflexivity.
Defined.

Lemma flat_deltas (c : Q) (cs : list Q) : forall c0,
  c0 == c -> Forall (fun x => x == c) cs ->
  Forall (fun d => d == 0) (deltas_from c0 cs).
Proof.
  induction cs as [|a cs IH]; intros c0 H0 H; [constructor|].
  inversion H as [|? ? Ha Hcs]; subst. cbn [deltas_from].
  constructor; [lra|now apply IH].
Qed.

Lemma flat_gains_losses (c : Q) (cs : list Q) :
  Forall (fun x => x == c) cs ->
  Forall (fun q => 0 <= q /\ q <= 0) (gainsQ cs) /\
  Forall (fun q => 0 <= q /\ q <= 0) (lossesQ cs).
Proof.
  intros H. destruct cs as [|c0 cs]; [split; constructor|].
  inversion H as [|? ? H0 Hcs]; subst.
  pose proof (flat_deltas c cs c0 H0 Hcs) as Hd. cbn [gainsQ lossesQ].
  split; (constructor; [lra|]); rewrite Forall_map; revert Hd; apply Forall_impl;
    intros d Hd.
  - destruct (pos_part_cases d) as [_ Hz]. rewrite Hz by lra. lra.
  - destruct (neg_part_cases d) as [_ Hz]. rewrite Hz by lra. lra.
Qed.

(** X16.  On a flat history (every close equal to [c]) the moving average is
    [c] wherever it is available, both exponential means are [c], MACD and the
    signal line are 0 every day, and the RSI has no value on any day. *)
Theorem flat_history_indicators (n : nat) (h : PriceSeries) (c : Q) (i : nat) :
  (1 <= n)%nat ->
  Forall (within c c) (closes h) ->
  (i < List.length h)%nat ->
  let close := closes h in
  ((n - 1 <= i)%nat -> feq (nth i (SMA n close) NaN) (Fin c)) /\
  feq (nth i (exp1 close) NaN) (Fin c) /\
  feq (nth i (exp2 close) NaN) (Fin c) /\
  feq (nth i (MACD close) NaN) (Fin 0) /\
  feq (nth i (Signal close) NaN) (Fin 0) /\
  nth i (RSI close) NaN = NaN.
Proof.
  intros Hn Hw Hi close. subst close.
  pose proof (within_close_prices c c h Hw) as Hcs.
  pose proof (close_prices_length h) as HL.
  assert (Hflat : Forall (fun x => x == c) (close_prices h)).
  { revert Hcs. apply Forall_impl. intros a [H1 H2]. lra. }
  split; [|split; [|split; [|split; [|split]]]].
  - intros Hge. unfold SMA. rewrite closes_map.
    destruct (rolling_mean_after n (close_prices h) i) as (m & -> & Hm); try lia.
    cbn [feq]. rewrite Hm.
    destruct (arith_mean_range c c (window n i (close_prices h))).
    + apply window_nonempty; lia.
    + now apply Forall_window.
    + lra.
  - unfold exp1. rewrite closes_map.
    destruct (ewm_mean_range 12 c c (close_prices h)) as (es & -> & Le & Re);
      [lra|exact Hcs|].
    rewrite map_Fin_nth by lia. cbn [feq].
    destruct (Forall_nth_Q _ es i Re); [lia|lra].
  - unfold exp2. rewrite closes_map.
    destruct (ewm_mean_range 26 c c (close_prices h)) as (es & -> & Le & Re);
      [lra|exact Hcs|].
    rewrite map_Fin_nth by lia. cbn [feq].
    destruct (Forall_nth_Q _ es i Re); [lia|lra].
  - unfold MACD, exp1, exp2. rewrite closes_map.
    destruct (ewm_mean_range 12 c c (close_prices h)) as (e12 & -> & L12 & R12);
      [lra|exact Hcs|].
    destruct (ewm_mean_range 26 c c (close_prices h)) as (e26 & -> & L26 & R26);
      [lra|exact Hcs|].
    rewrite zip_sub_finite, map_Fin_nth by (rewrite zip_with_length; lia).
    rewrite (zip_with_nth Qminus e12 e26 i 0 0) by lia. cbn [feq].
    destruct (Forall_nth_Q _ e12 i R12); [lia|].
    destruct (Forall_nth_Q _ e26 i R26); [lia|]. lra.
  - unfold Signal, MACD, exp1, exp2. rewrite closes_map.
    destruct (ewm_mean_range 12 c c (close_prices h)) as (e12 & -> & L12 & R12);
      [lra|exact Hcs|].
    destruct (ewm_mean_range 26 c c (close_prices h)) as (e26 & -> & L26 & R26);
      [lra|exact Hcs|].
    rewrite zip_sub_finite.
    assert (Rm : Forall (fun m => 0 <= m /\ m <= 0) (zip_with Qminus e12 e26)).
    { clear -R12 R26. revert e26 R26.
      induction R12 as [|a l [Ha1 Ha2] _ IH]; intros [|b e26] R26; cbn;
        try constructor.
      - inversion R26 as [|? ? [Hb1 Hb2] _]; subst. split; lra.
      - inversion R26; subst. now apply IH. }
    destruct (ewm_mean_range 9 0 0 (zip_with Qminus e12 e26))
      as (sig & -> & Ls & Rs); [lra|exact Rm|].
    rewrite zip_with_length in Ls.
    rewrite map_Fin_nth by lia. cbn [feq].
    destruct (Forall_nth_Q _ sig i Rs); [lia|lra].
  - destruct (Nat.lt_ge_cases i 13) as [H13|H13].
    + rewrite (RSI_nth h i Hi).
      destruct (average_gain_loss_at h i Hi) as [Hb _].
      destruct (Hb H13) as [-> _]. reflexivity.
    + destruct (RSI_from_columns h i H13 Hi) as (ag & al & -> & Eag & Eal).
      destruct (flat_gains_losses c (close_prices h) Hflat) as [Hg Hl].
      pose proof (gainsQ_length (close_prices h)) as Lg.
      pose proof (lossesQ_length (close_prices h)) as Ll.
      apply rsi_of_zero_loss_zero_gain.
      * destruct (arith_mean_range 0 0 (window 14 i (lossesQ (close_prices h)))).
        -- apply window_nonempty; lia.
        -- now apply Forall_window.
        -- lra.
      * destruct (arith_mean_range 0 0 (window 14 i (gainsQ (close_prices h)))).
        -- apply window_nonempty; lia.
        -- now apply Forall_window.
        -- lra.
Qed.

Lemma flat_history_indicators_witness :
  feq (nth 14 (MACD (closes flat_history)) NaN) (Fin 0) /\
  nth 14 (RSI (closes flat_history)) NaN = NaN.
Proof.
  assert (Hw : Forall (within 7 7) (closes flat_history)).
  { cbn. repeat constructor; cbv; discriminate. }
  assert (Hi : (14 < List.length flat_history)%nat) by (cbn; lia).
  destruct (flat_history_indicators 1 flat_history 7 14 (le_n 1) Hw Hi)
    as (_ & _ & _ & H1 & _ & H2).
  split; [exact H1|exact H2].
Defined.

(* ================================================================== *)
(** ** More on the return matrix *)

Lemma pct_notna_iff (s : PriceSeries) (d' d : Z) :
  notna (pct (value_at d s) (value_at d' s)) = true <-> has_return s d' d.
Proof.
  unfold has_return. split.
  - intros H.
    destruct (pct_available _ _ (value_at_cases d s) (value_at_cases d' s) H)
      as (c & c' & Hc & Hc').
    exists c, c'. split; [exact Hc|]. split; [exact Hc'|].
    rewrite Hc, Hc' in H. intros [H0 H0']. unfold pct in H. cbn [div] in H.
    apply Qeq_bool_iff in H0'. rewrite H0' in H.
    apply Qeq_alt in H0. rewrite H0 in H. discriminate H.
  - intros (c & c' & -> & -> & Hnz). unfold pct. cbn [div].
    destruct (Qeq_bool c' 0) eqn:E; [|reflexivity].
    apply Qeq_bool_iff in E.
    destruct (Qcompare_spec c 0) as [E0|L|G]; [exfalso; auto|reflexivity|reflexivity].
Qed.

Lemma pct_change_from_complete (hist : list (string * PriceSeries)) rest :
  forall dprev d' d,
    adjacent (dprev :: rest) d' d ->
    In (d, zip_with pct (snd (row_at hist d)) (snd (row_at hist d')))
       (pct_change_from (snd (row_at hist dprev)) (map (row_at hist) rest)).
Proof.
  induction rest as [|r rest IH]; intros dprev d' d (l1 & l2 & E).
  - destruct l1 as [|a [|b l1]]; discriminate E.
  - cbn [map pct_change_from]. destruct l1 as [|a l1].
    + injection E as -> -> ->. left. reflexivity.
    + injection E as -> E. right. apply IH. now exists l1, l2.
Qed.

Lemma returns_row_complete (hist : list (string * PriceSeries)) d' d :
  adjacent (union_index hist) d' d ->
  (forall col, In col hist ->
     notna (pct (value_at d (snd col)) (value_at d' (snd col))) = true) ->
  In d (map fst (rows (returns hist))).
Proof.
  intros Hadj Hall. unfold returns, mul_scalar, dropna, pct_change, of_dict.
  cbn [rows columns]. rewrite map_map. cbn [fst].
  apply in_map_iff.
  exists (d, zip_with pct (snd (row_at hist d)) (snd (row_at hist d'))).
  split; [reflexivity|]. apply filter_In. split.
  - destruct (union_index hist) as [|d0 rest] eqn:Ei.
    + destruct Hadj as ([|? ?] & ? & E); discriminate E.
    + cbn [map]. right. now apply pct_change_from_complete.
  - cbn [snd row_at]. rewrite zip_with_map_same. apply forallb_forall.
    intros x Hx. apply in_map_iff in Hx. destruct Hx as (col & <- & Hcol). now apply Hall.
Qed.

(** X17.  The return matrix has a row for a date exactly when that date has
    an immediate predecessor in the aligned index and every symbol has a
    close on both dates, not both of them 0: nothing else is dropped. *)
Theorem return_row_exists_iff (hist : list (string * PriceSeries)) (d : Z) :
  hist <> [] ->
  (In d (map fst (rows (returns hist))) <->
   exists d', adjacent (union_index hist) d' d /\
              forall col, In col hist -> has_return (snd col) d' d).
Proof.
  intros Hne. split.
  - intros Hin. apply in_map_iff in Hin. destruct Hin as ([d1 cells] & E & Hin).
    cbn in E. subst d1.
    destruct (returns_row_inv hist d cells Hne Hin) as (d' & Hadj & _ & Hav).
    exists d'. split; [exact Hadj|]. intros col Hcol. apply pct_notna_iff. now apply Hav.
  - intros (d' & Hadj & Hall). apply (returns_row_complete hist d' d Hadj).
    intros col Hcol. apply pct_notna_iff. now apply Hall.
Qed.

Lemma return_row_exists_iff_witness :
  In 5%Z (map fst (rows (returns sample_hist_data))).
Proof.
  assert (Hne : sample_hist_data <> []) by discriminate.
  apply (proj2 (return_row_exists_iff sample_hist_data 5%Z Hne)).
  exists 3%Z. split.
  - exists [1%Z; 2%Z], [6%Z]. reflexivity.
  - intros col [<-|[<-|[]]]; eexists; eexists;
      (split; [reflexivity|split; [reflexivity|]]); intros [H _]; discriminate H.
Defined.

Lemma pct_change_from_dates (prev : list float) (rs : list (Z * list float)) :
  map fst (pct_change_from prev rs) = map fst rs.
Proof.
  revert prev; induction rs as [|r rs IH]; intros prev; [reflexivity|].
  cbn [pct_change_from map fst]. now rewrite IH.
Qed.

Lemma pct_change_dates (hist : list (string * PriceSeries)) :
  map fst (rows (pct_change (of_dict hist))) = union_index hist.
Proof.
  unfold pct_change, of_dict. cbn [rows].
  destruct (union_index hist) as [|d0 rest]; [reflexivity|].
  cbn [map fst row_at]. rewrite pct_change_from_dates, map_map. cbn [fst row_at].
  now rewrite map_id.
Qed.

Lemma sorted_filter_map {A : Type} (g : A -> Z) (f : A -> bool) (l : list A) :
  StronglySorted Z.lt (map g l) -> StronglySorted Z.lt (map g (filter f l)).
Proof.
  induction l as [|a l IH]; intros H; [constructor|]. cbn [map] in H.
  inversion H as [|? ? Hs Hall]; subst. cbn [filter].
  destruct (f a); [|now apply IH]. cbn [map]. constructor; [now apply IH|].
  rewrite Forall_forall in *. intros x Hx. apply Hall.
  apply in_map_iff in Hx. destruct Hx as (y & <- & Hy). apply filter_In in Hy.
  apply in_map. tauto.
Qed.

Lemma sorted_lt_NoDup (l : list Z) : StronglySorted Z.lt l -> NoDup l.
Proof.
  induction 1 as [|a l Hs IH Hall]; constructor; [|exact IH].
  intros Hin. rewrite Forall_forall in Hall. specialize (Hall a Hin). lia.
Qed.

Lemma returns_dates_sorted (hist : list (string * PriceSeries)) :
  StronglySorted Z.lt (map fst (rows (returns hist))).
Proof.
  unfold returns, mul_scalar, dropna. cbn [rows]. rewrite map_map. cbn [fst].
  apply sorted_filter_map. rewrite pct_change_dates. apply union_index_sorted.
Qed.

Lemma later_date_in_tail (s : PriceSeries) (d' d : Z) :
  ascending s -> In d' (dates s) -> In d (dates s) -> (d' < d)%Z ->
  In d (List.tl (dates s)).
Proof.
  unfold ascending. destruct s as [|[x cx] s]; [contradiction|]. cbn [dates map fst List.tl].
  intros Hs Hd' Hd Hlt. inversion Hs as [|? ? _ Hall]; subst.
  rewrite Forall_forall in Hall.
  destruct Hd as [<-|Hd]; [|exact Hd].
  destruct Hd' as [<-|Hd']; [lia|]. specialize (Hall d' Hd'). lia.
Qed.

(** X18.  The dates of the return matrix are strictly ascending, and there
    are at most (length of the history - 1) of them for every symbol with an
    ascending history: the symbol with the shortest history limits the heat
    map of all, and one with fewer than two closes empties it. *)
Theorem return_rows_bounded (hist : list (string * PriceSeries)) :
  let D := map fst (rows (returns hist)) in
  StronglySorted Z.lt D /\
  (forall col, In col hist -> ascending (snd col) ->
     (List.length (rows (returns hist)) <= List.length (snd col) - 1)%nat) /\
  (forall col, In col hist -> (List.length (snd col) < 2)%nat ->
     rows (returns hist) = []).
Proof.
  intros D. subst D. pose proof (returns_dates_sorted hist) as Hs.
  assert (Hbound : forall col, In col hist -> ascending (snd col) ->
            (List.length (rows (returns hist)) <= List.length (snd col) - 1)%nat).
  { intros col Hcol Hasc.
    assert (Hne : hist <> []) by (intros E; rewrite E in Hcol; contradiction).
    rewrite <- (length_map fst (rows (returns hist))).
    replace (List.length (snd col) - 1)%nat with (List.length (List.tl (dates (snd col))))
      by (unfold dates; destruct (snd col); cbn; rewrite ?length_map; lia).
    apply NoDup_incl_length; [now apply sorted_lt_NoDup|].
    intros d Hd. apply in_map_iff in Hd. destruct Hd as ([d1 cells] & E & Hin).
    cbn in E. subst d1.
    destruct (returns_row_inv hist d cells Hne Hin) as (d' & Hadj & _ & Hav).
    destruct (adjacent_sorted _ _ _ (union_index_sorted hist) Hadj) as (Hlt & _).
    destruct (pct_available _ _ (value_at_cases d (snd col))
                (value_at_cases d' (snd col)) (Hav col Hcol)) as (c & c' & Hc & Hc').
    apply value_at_in, in_dates in Hc. apply value_at_in, in_dates in Hc'.
    now apply (later_date_in_tail (snd col) d' d). }
  split; [exact Hs|]. split; [exact Hbound|].
  intros col Hcol Hshort.
  assert (Hasc : ascending (snd col)).
  { unfold ascending, dates. destruct (snd col) as [|a [|b l]]; cbn in *;
      [constructor|repeat constructor|lia]. }
  specialize (Hbound col Hcol Hasc).
  destruct (rows (returns hist)); [reflexivity|cbn in Hbound; lia].
Qed.


Lemma insert_date_at_end (d : Z) (l : list Z) :
  Forall (fun x => (x < d)%Z) l -> insert_date d l = l ++ [d].
Proof.
  induction 1 as [|x l Hx _ IH]; [reflexivity|]. cbn [insert_date app].
  destruct (Z.compare_spec d x); try lia. now rewrite IH.
Qed.

Lemma insert_date_existing (d : Z) (l : list Z) :
  StronglySorted Z.lt l -> In d l -> insert_date d l = l.
Proof.
  induction 1 as [|x l Hs IH Hall]; intros Hin; [contradiction|]. cbn [insert_date].
  rewrite Forall_forall in Hall.
  destruct (Z.compare_spec d x) as [E|L|G]; [reflexivity| |].
  - destruct Hin as [->|Hin]; [lia|]. specialize (Hall d Hin). lia.
  - destruct Hin as [->|Hin]; [lia|]. now rewrite IH.
Qed.

Lemma insert_dates_fresh (ds : list Z) : forall acc,
  StronglySorted Z.lt (acc ++ ds) ->
  fold_left (fun a d => insert_date d a) ds acc = acc ++ ds.
Proof.
  induction ds as [|d ds IH]; intros acc Hs; [now rewrite app_nil_r|].
  cbn [fold_left]. destruct (sorted_app_inv acc (d :: ds) Hs) as (_ & _ & Hlt).
  rewrite insert_date_at_end.
  - rewrite IH; rewrite <- app_assoc; [reflexivity|exact Hs].
  - apply Forall_forall. intros x Hx. apply Hlt; [exact Hx|now left].
Qed.

Lemma insert_dates_existing (ds acc : list Z) :
  StronglySorted Z.lt acc -> incl ds acc ->
  fold_left (fun a d => insert_date d a) ds acc = acc.
Proof.
  intros Hs. induction ds as [|d ds IH]; intros Hincl; [reflexivity|].
  cbn [fold_left]. rewrite insert_date_existing; [|exact Hs|apply Hincl; now left].
  apply IH. intros x Hx. apply Hincl. now right.
Qed.

Lemma union_index_common (hist : list (string * PriceSeries)) (ds : list Z) :
  hist <> [] -> StronglySorted Z.lt ds ->
  (forall col, In col hist -> dates (snd col) = ds) ->
  union_index hist = ds.
Proof.
  intros Hne Hs Hall. destruct hist as [|c0 cols]; [congruence|].
  unfold union_index. cbn [fold_left].
  rewrite (Hall c0 (or_introl eq_refl)), (insert_dates_fresh ds [] Hs). cbn [app].
  assert (Hrest : forall col, In col cols -> dates (snd col) = ds).
  { intros col Hc. apply Hall. now right. }
  clear Hall Hne. induction cols as [|c cols IH]; [reflexivity|].
  cbn [fold_left]. rewrite (Hrest c (or_introl eq_refl)).
  rewrite insert_dates_existing; [|exact Hs|apply incl_refl].
  apply IH. intros col Hc. apply Hrest. now right.
Qed.

Lemma value_at_present (s : PriceSeries) (d : Z) :
  In d (dates s) -> exists c, value_at d s = Fin c /\ In (d, c) s.
Proof.
  intros Hin. unfold value_at.
  destruct (find (fun p => Z.eqb (fst p) d) s) as [[d1 c1]|] eqn:E.
  - apply find_some in E. destruct E as [Hp Heq]. cbn in Heq. apply Z.eqb_eq in Heq.
    subst d1. now exists c1.
  - exfalso. unfold dates in Hin. apply in_map_iff in Hin.
    destruct Hin as ([d1 c1] & Hd & Hp). cbn in Hd. subst d1.
    pose proof (find_none _ _ E _ Hp) as Hf. cbn in Hf. rewrite Z.eqb_refl in Hf.
    discriminate.
Qed.

Lemma filter_all {A : Type} (f : A -> bool) (l : list A) :
  (forall x, In x l -> f x = true) -> filter f l = l.
Proof.
  induction l as [|a l IH]; intros H; [reflexivity|]. cbn [filter].
  rewrite (H a (or_introl eq_refl)). f_equal. apply IH. intros x Hx. apply H. now right.
Qed.

(** X20.  When all symbols trade on the same ascending dates and no close is
    0, nothing but the first date is dropped: the return matrix has a row for
    every other date, in order. *)
Theorem common_calendar_keeps_all_dates (hist : list (string * PriceSeries))
  (ds : list Z) :
  hist <> [] ->
  StronglySorted Z.lt ds ->
  (forall col, In col hist -> dates (snd col) = ds) ->
  (forall col d c, In col hist -> In (d, c) (snd col) -> ~ c == 0) ->
  map fst (rows (returns hist)) = List.tl ds.
Proof.
  intros Hne Hs Hdates Hnz.
  pose proof (union_index_common hist ds Hne Hs Hdates) as Hidx.
  assert (Hkeep : forall d' d, adjacent ds d' d ->
            forallb notna (zip_with pct (snd (row_at hist d)) (snd (row_at hist d')))
            = true).
  { intros d' d Hadj. destruct (adjacent_sorted ds d' d Hs Hadj) as (_ & Hd' & Hd & _).
    cbn [row_at snd]. rewrite zip_with_map_same. apply forallb_forall.
    intros x Hx. apply in_map_iff in Hx. destruct Hx as (col & <- & Hcol).
    rewrite <- (Hdates col Hcol) in Hd, Hd'.
    destruct (value_at_present (snd col) d Hd) as (c & -> & Hc).
    destruct (value_at_present (snd col) d' Hd') as (c' & -> & Hc').
    unfold pct. cbn [div]. destruct (Qeq_bool c' 0) eqn:E; [|reflexivity].
    apply Qeq_bool_iff in E. exfalso. exact (Hnz col d' c' Hcol Hc' E). }
  unfold returns, mul_scalar, dropna, pct_change, of_dict. cbn [rows columns].
  rewrite map_map. cbn [fst]. rewrite Hidx.
  destruct ds as [|d0 rest]; [reflexivity|]. cbn [map filter List.tl].
  assert (Hfirst : forallb notna (snd (fst (row_at hist d0),
                     map (fun _ : float => NaN) (snd (row_at hist d0)))) = false).
  { destruct hist; [congruence|]. reflexivity. }
  rewrite Hfirst. rewrite filter_all.
  - rewrite pct_change_from_dates, map_map. cbn [fst row_at]. apply map_id.
  - intros [d cs] Hin. cbn [snd].
    destruct (pct_change_from_in hist rest d0 d cs Hin) as (d' & Hadj & ->).
    now apply Hkeep.
Qed.

Lemma common_calendar_keeps_all_dates_witness :
  map fst (rows (returns [("A"%string, rising_history); ("B"%string, falling_history)]))
  = List.tl (dates rising_history).
Proof.
  apply common_calendar_keeps_all_dates.
  - discriminate.
  - cbn. repeat constructor.
  - intros col [<-|[<-|[]]]; reflexivity.
  - intros col d c [<-|[<-|[]]] Hin; cbn in Hin;
      repeat (destruct Hin as [E|Hin]; [injection E as <- <-; discriminate|]);
      contradiction.
Defined.

(* ================================================================== *)
(** ** More on the summary *)

Lemma present_skip (f : InfoRecord -> option Q)
  (e1 e2 : list (string * InfoRecord)) (e : string * InfoRecord) :
  f (snd e) = None ->
  field_values f (e1 ++ e :: e2) = field_values f (e1 ++ e2).
Proof.
  intros H. unfold field_values, present.
  rewrite !map_app, !flat_map_app. cbn [map flat_map]. now rewrite H.
Qed.

Lemma average_of_table (v : variant) (entries : list (string * InfoRecord)) :
  average v (map Price (table_of v entries))
    = Some (mean (field_values currentPrice entries)) /\
  average v (map MarketCap (table_of v entries))
    = Some (mean (field_values marketCap entries)) /\
  average v (map PERatio (table_of v entries))
    = Some (mean (field_values trailingPE entries)).
Proof.
  rewrite (table_column v Price currentPrice), (table_column v MarketCap marketCap),
    (table_column v PERatio trailingPE) by reflexivity.
  rewrite !average_get_num. repeat split.
Qed.

(** X21.  A missing field is never counted as 0: a row whose price (market
    cap, P/E) is missing leaves the average price (market cap, P/E) exactly
    as it is without that row, in both scripts; and an average always lies
    between the smallest and the largest value it is taken over. *)
Theorem average_ignores_missing (v : variant)
  (e1 e2 : list (string * InfoRecord)) (e : string * InfoRecord) :
  (currentPrice (snd e) = None ->
     average v (map Price (table_of v (e1 ++ e :: e2)))
     = average v (map Price (table_of v (e1 ++ e2)))) /\
  (marketCap (snd e) = None ->
     average v (map MarketCap (table_of v (e1 ++ e :: e2)))
     = average v (map MarketCap (table_of v (e1 ++ e2)))) /\
  (trailingPE (snd e) = None ->
     average v (map PERatio (table_of v (e1 ++ e :: e2)))
     = average v (map PERatio (table_of v (e1 ++ e2)))) /\
  (forall lo hi,
     field_values trailingPE e1 <> [] ->
     Forall (fun q => lo <= q /\ q <= hi) (field_values trailingPE e1) ->
     exists m, average v (map PERatio (table_of v e1)) = Some (Fin m) /\
               lo <= m /\ m <= hi).
Proof.
  destruct (average_of_table v (e1 ++ e :: e2)) as (P1 & M1 & E1).
  destruct (average_of_table v (e1 ++ e2)) as (P2 & M2 & E2).
  split; [|split; [|split]].
  - intros H. now rewrite P1, P2, (present_skip currentPrice e1 e2 e H).
  - intros H. now rewrite M1, M2, (present_skip marketCap e1 e2 e H).
  - intros H. now rewrite E1, E2, (present_skip trailingPE e1 e2 e H).
  - intros lo hi Hne Hr. destruct (average_of_table v e1) as (_ & _ & ->).
    destruct (arith_mean_range lo hi _ Hne Hr) as [H1 H2].
    exists (arith_mean (field_values trailingPE e1)). split; [|split; assumption].
    unfold mean, arith_mean. destruct (field_values trailingPE e1); [congruence|reflexivity].
Qed.

(* ================================================================== *)
(** ** The heat map on an empty return matrix *)

Section HeatMap.

Variable v : variant.
Variable p : provider.

Lemma errors_for_only_errors (ts : list string) (f : event -> bool) :
  (forall t e, f (StError t e) = false) -> existsb f (errors_for p ts) = false.
Proof.
  intros Hf. rewrite errors_for_failed.
  induction (filter (fun t => negb (fully_ok p t)) ts) as [|t l IH]; [reflexivity|].
  cbn [map existsb]. rewrite IH. unfold fetch_error.
  destruct (info_of p t); [destruct (download p t)|]; now rewrite Hf.
Qed.

Lemma fully_ok_info_ok (ts : list string) :
  existsb (fully_ok p) ts = true -> existsb (info_ok p) ts = true.
Proof.
  rewrite !existsb_exists. intros (t & Ht & H). exists t. split; [exact Ht|].
  unfold fully_ok in H. now apply andb_true_iff in H.
Qed.

Lemma hist_needs_rows (ts : list string) :
  hist_data (fetch_all v p ts) <> [] -> data (fetch_all v p ts) <> [].
Proof.
  intros Hh Hd. apply data_nil_iff in Hd.
  destruct (existsb (fully_ok p) ts) eqn:E.
  - apply fully_ok_info_ok in E. congruence.
  - apply (proj2 (hist_nil_iff v p ts)) in E. contradiction.
Qed.

Lemma short_history_no_rows (hist : list (string * PriceSeries)) col :
  In col hist -> (List.length (snd col) < 2)%nat -> rows (returns hist) = [].
Proof.
  intros Hcol Hshort. destruct (rows (returns hist)) as [|[d cells] rest] eqn:E;
    [reflexivity|]. exfalso.
  assert (Hne : hist <> []) by (intros H; rewrite H in Hcol; contradiction).
  assert (Hin : In (d, cells) (rows (returns hist))) by (rewrite E; now left).
  destruct (returns_row_inv hist d cells Hne Hin) as (d' & Hadj & _ & Hav).
  destruct (adjacent_sorted _ _ _ (union_index_sorted hist) Hadj) as (Hlt & _).
  destruct (pct_available _ _ (value_at_cases d (snd col))
              (value_at_cases d' (snd col)) (Hav col Hcol)) as (c & c' & Hc & Hc').
  apply value_at_in in Hc. apply value_at_in in Hc'.
  destruct (snd col) as [|a [|b l]]; cbn in Hshort; [contradiction| |lia].
  destruct Hc as [->|[]]. destruct Hc' as [E'|[]]. injection E' as E' _. lia.
Qed.

Lemma fetched_history_collected (ts : list string) t info h :
  In t ts -> info_of p t = Ok info -> download p t = Ok h ->
  In (t, h) (hist_data (fetch_all v p ts)).
Proof.
  intros Ht Hinfo Hdl.
  assert (Hkey : In t (map fst (hist_data (fetch_all v p ts)))).
  { rewrite hist_data_keys_eq. unfold first_occurrences.
    apply (proj2 (dedup_seen_spec (filter (fully_ok p) ts) [])).
    split; [|intros []]. apply filter_In. split; [exact Ht|].
    unfold fully_ok, info_ok, download_ok. now rewrite Hinfo, Hdl. }
  apply in_map_iff in Hkey. destruct Hkey as ([t' h'] & E & Hin). cbn in E. subst t'.
  pose proof (hist_data_values p v ts t h' Hin) as Hd. congruence.
Qed.

(** X6.  The heat map call is outside every [try]: when histories were
    collected but the return matrix has no row, the page shows the errors,
    the table, the averages, the download and the heat-map title and stops
    there with an exception (no heat map, no chart, no warning); this
    happens as soon as one fully fetched symbol has fewer than two closes.
    With a non-empty matrix the heat map of that matrix is shown. *)
Theorem empty_return_matrix_stops_page (ts : list string) :
  let f := fetch_all v p ts in
  let hist := hist_data f in
  (hist <> [] -> rows (returns hist) = [] ->
     exists shown,
       generate v p ts
       = shown ++ [StSubheader "Performance Heatmap (6M Daily Returns)"; StException] /\
       In (StDataframe (data f)) shown /\
       existsb chart_event shown = false /\
       existsb is_heatmap shown = false) /\
  (forall t info h,
     In t ts -> info_of p t = Ok info -> download p t = Ok h ->
     (List.length h < 2)%nat ->
     hist <> [] /\ rows (returns hist) = []) /\
  (hist <> [] -> rows (returns hist) <> [] ->
     In (StHeatmap (returns hist)) (generate v p ts)).
Proof.
  intros f hist. subst f hist. split; [|split].
  - intros Hh Hr. pose proof (hist_needs_rows ts Hh) as Hd.
    unfold generate, output_stage.
    destruct (data (fetch_all v p ts)) as [|r rs] eqn:E; [congruence|].
    rewrite <- E. rewrite fetch_all_errors, fetch_all_data, rows_for_table, summary_table.
    assert (Hraise : heatmap_raises (hist_data (fetch_all v p ts)) = true).
    { unfold heatmap_raises. rewrite Hr. now destruct (hist_data (fetch_all v p ts)). }
    rewrite Hraise. unfold heatmap. rewrite Hraise.
    destruct (hist_data (fetch_all v p ts)) as [|c0 h0]; [congruence|].
    eexists. split.
    + rewrite app_nil_r. rewrite !app_assoc. reflexivity.
    + split; [|split].
      * apply in_or_app. left. apply in_or_app. left. apply in_or_app. right.
        right. now left.
      * rewrite !existsb_app, errors_for_only_errors by reflexivity. reflexivity.
      * rewrite !existsb_app, errors_for_only_errors by reflexivity. reflexivity.
  - intros t info h Ht Hinfo Hdl Hshort.
    pose proof (fetched_history_collected ts t info h Ht Hinfo Hdl) as Hin.
    split.
    + intros E. rewrite E in Hin. contradiction.
    + now apply (short_history_no_rows _ (t, h)).
  - intros Hh Hr. pose proof (hist_needs_rows ts Hh) as Hd.
    destruct (generate_with_rows v p ts Hd) as (metrics & _ & ->).
    assert (Hraise : heatmap_raises (hist_data (fetch_all v p ts)) = false).
    { unfold heatmap_raises.
      destruct (hist_data (fetch_all v p ts)) as [|c1 h1]; [reflexivity|].
      now destruct (rows (returns (c1 :: h1))). }
    unfold heatmap. rewrite Hraise.
    destruct (hist_data (fetch_all v p ts)) as [|c0 h0]; [congruence|].
    apply in_or_app. right. apply in_or_app. right. apply in_or_app. right.
    apply in_or_app. right. apply in_or_app. left. right. now left.
Qed.

End HeatMap.
